(** * Secret reconciler of action-set-secretmanager-secret

    A shallow embedding of [run] (src/main.js; the line numbers quoted
    below are those of src/jest.config.js, the file that holds its text)
    and of the platform functions it relies on, followed by the properties
    of the reconciliation loop.

    JavaScript strings are sequences of UTF-16 code units and a [Buffer]
    is a sequence of bytes; both are lists of [N].  The secret-storage
    client and [@actions/core] are the environment of [run]: the client
    is an arbitrary state machine answering each call with a fulfilled or
    a rejected promise, and every call of [run] to either of them is
    appended to a log. *)

From Stdlib Require Import List NArith Bool Lia String Ascii.
Import ListNotations.

Local Open Scope N_scope.
#[local] Set Warnings "-notation-for-abbreviation".
Local Open Scope list_scope.

(** ** JavaScript strings *)

Module JS.

(** A string value: its UTF-16 code units. *)
Definition JSString := list N.

(** A string literal of the source (ASCII only). *)
Definition str (s : string) : JSString :=
  map N_of_ascii (list_ascii_of_string s).

Fixpoint eqb (a b : JSString) : bool :=
  match a, b with
  | [], [] => true
  | x :: a', y :: b' => (x =? y) && eqb a' b'
  | _, _ => false
  end.

(** ECMAScript WhiteSpace and LineTerminator code points, the characters
    removed by [String.prototype.trim]. *)
Definition isWhiteSpace (c : N) : bool :=
  ((9 <=? c) && (c <=? 13))
  || (c =? 32) || (c =? 160) || (c =? 5760)
  || ((8192 <=? c) && (c <=? 8202))
  || (c =? 8232) || (c =? 8233) || (c =? 8239) || (c =? 8287)
  || (c =? 12288) || (c =? 65279).

Fixpoint trimStart (s : JSString) : JSString :=
  match s with
  | [] => []
  | c :: r => if isWhiteSpace c then trimStart r else s
  end.

Definition trimEnd (s : JSString) : JSString := rev (trimStart (rev s)).

Definition trim (s : JSString) : JSString := trimEnd (trimStart s).

(** [s.split(sep)] for a one-character separator: always at least one
    segment, [''.split(sep)] being [['']]. *)
Fixpoint split (sep : N) (s : JSString) : list JSString :=
  match s with
  | [] => [[]]
  | c :: r =>
      if c =? sep then [] :: split sep r
      else match split sep r with
           | h :: t => (c :: h) :: t
           | [] => [[c]]
           end
  end.

(** [s.includes(t)]. *)
Fixpoint startsWith (t s : JSString) : bool :=
  match t, s with
  | [], _ => true
  | x :: t', y :: s' => (x =? y) && startsWith t' s'
  | _ :: _, [] => false
  end.

Fixpoint includes (t s : JSString) : bool :=
  startsWith t s ||
  match s with
  | [] => false
  | _ :: s' => includes t s'
  end.

(** *** Buffers and UTF-8 *)

Definition Buffer := list N.

Definition isHighSurrogate (c : N) : bool := (55296 <=? c) && (c <? 56320).
Definition isLowSurrogate (c : N) : bool := (56320 <=? c) && (c <? 57344).

(** U+FFFD in UTF-8. *)
Definition replacement_bytes : Buffer := [239; 191; 189].

Definition encode3 (c : N) : Buffer :=
  [N.lor 224 (N.shiftr c 12);
   N.lor 128 (N.land (N.shiftr c 6) 63);
   N.lor 128 (N.land c 63)].

Definition encode4 (cp : N) : Buffer :=
  [N.lor 240 (N.shiftr cp 18);
   N.lor 128 (N.land (N.shiftr cp 12) 63);
   N.lor 128 (N.land (N.shiftr cp 6) 63);
   N.lor 128 (N.land cp 63)].

(** [Buffer.from(s, 'utf8')]: a surrogate pair is one code point, a lone
    surrogate is written as U+FFFD. *)
Fixpoint Buffer_from (s : JSString) : Buffer :=
  match s with
  | [] => []
  | c :: r =>
      if c <? 128 then c :: Buffer_from r
      else if c <? 2048 then
        N.lor 192 (N.shiftr c 6) :: N.lor 128 (N.land c 63) :: Buffer_from r
      else if isHighSurrogate c then
        match r with
        | lo :: r' =>
            if isLowSurrogate lo
            then encode4 (65536 + N.shiftl (c - 55296) 10 + (lo - 56320))
                   ++ Buffer_from r'
            else replacement_bytes ++ Buffer_from r
        | [] => replacement_bytes
        end
      else if isLowSurrogate c then replacement_bytes ++ Buffer_from r
      else encode3 c ++ Buffer_from r
  end.

(** State of the UTF-8 decoder between two bytes: the code point being
    assembled, the continuation bytes still needed and the range allowed
    for the next byte. *)
Record Decoder := {
  cp : N;
  needed : N;
  lower : N;
  upper : N
}.

Definition idle : Decoder := {| cp := 0; needed := 0; lower := 128; upper := 191 |}.

(** The code units of one decoded code point. *)
Definition units (c : N) : JSString :=
  if c <? 65536 then [c]
  else [55296 + N.shiftr (c - 65536) 10; 56320 + N.land (c - 65536) 1023].

(** A byte met while no sequence is open. *)
Definition lead (b : N) : JSString * Decoder :=
  if b <? 128 then ([b], idle)
  else if (194 <=? b) && (b <=? 223) then
    ([], {| cp := N.land b 31; needed := 1; lower := 128; upper := 191 |})
  else if (224 <=? b) && (b <=? 239) then
    ([], {| cp := N.land b 15; needed := 2;
            lower := if b =? 224 then 160 else 128;
            upper := if b =? 237 then 159 else 191 |})
  else if (240 <=? b) && (b <=? 244) then
    ([], {| cp := N.land b 7; needed := 3;
            lower := if b =? 240 then 144 else 128;
            upper := if b =? 244 then 143 else 191 |})
  else ([65533], idle).

Definition feed (d : Decoder) (b : N) : JSString * Decoder :=
  if needed d =? 0 then lead b
  else if (lower d <=? b) && (b <=? upper d) then
    let c := N.lor (N.shiftl (cp d) 6) (N.land b 63) in
    if needed d =? 1 then (units c, idle)
    else ([], {| cp := c; needed := needed d - 1; lower := 128; upper := 191 |})
  else
    let (out, d') := lead b in (65533 :: out, d').

Fixpoint decode (d : Decoder) (bs : Buffer) : JSString :=
  match bs with
  | [] => if needed d =? 0 then [] else [65533]
  | b :: r => let (out, d') := feed d b in out ++ decode d' r
  end.

(** [buf.toString('utf8')]: total, every invalid or truncated sequence
    becomes U+FFFD. *)
Definition toString_utf8 (b : Buffer) : JSString := decode idle b.

End JS.

Import JS.

(** ** Data model *)

(** One desired secret, as built by the parser. *)
Record SecretEntry := {
  key : JSString;
  value : JSString
}.

(** What a rejected client call carries: an object with an optional numeric
    [code], a [message], and the fact of being an [Error] instance or a
    plain object. *)
Record JsError := {
  code : option N;
  instanceof_Error : bool;
  message : JSString
}.

(** [error.code === 5] *)
Definition code_is (n : N) (error : JsError) : bool :=
  match code error with
  | Some c => c =? n
  | None => false
  end.

Record SecretPayload := { data : option Buffer }.

(** First element of the array [accessSecretVersion] resolves with. *)
Record VersionResponse := { payload : option SecretPayload }.

Inductive Replication :=
| Automatic
| UserManaged (locations : list JSString).

Inductive Settled (A : Type) :=
| Fulfilled (a : A)
| Rejected (e : JsError).
Arguments Fulfilled {A} a.
Arguments Rejected {A} e.

(** The client's methods, over the state [S] of the service behind it. *)
Record Client (S : Type) := {
  getSecret : JSString -> S -> Settled unit * S;
  createSecret : JSString -> JSString -> Replication -> S -> Settled unit * S;
  addSecretVersion : JSString -> Buffer -> S -> Settled unit * S;
  accessSecretVersion : JSString -> S -> Settled VersionResponse * S
}.
Arguments getSecret {S} c name s.
Arguments createSecret {S} c parent secretId replication s.
Arguments addSecretVersion {S} c parent data s.
Arguments accessSecretVersion {S} c name s.

(** ** Observable behaviour *)

Inductive Request :=
| GetSecret (name : JSString)
| CreateSecret (parent secretId : JSString) (replication : Replication)
| AddSecretVersion (parent : JSString) (data : Buffer)
| AccessSecretVersion (name : JSString).

Inductive Outcome :=
| Ok
| Failed (e : JsError).

Definition outcome {A} (r : Settled A) : Outcome :=
  match r with
  | Fulfilled _ => Ok
  | Rejected e => Failed e
  end.

Inductive Event :=
| Call (rq : Request) (o : Outcome)
| SetFailed (msg : JSString)
| SetOutput (name : JSString) (v : list JSString)
| Warning (msg : JSString)
| Info (msg : JSString).

(** ** Statements and control flow *)

Inductive Completion (A : Type) :=
| Normal (a : A)
| Throw (e : JsError)
| Continue
| Return.
Arguments Normal {A} a.
Arguments Throw {A} e.
Arguments Continue {A}.
Arguments Return {A}.

Section Reconciler.

Context {S : Type}.

Record State := {
  service : S;
  log : list Event;
  updatedSecrets : list JSString
}.

Definition M (A : Type) := State -> Completion A * State.

Definition ret {A} (a : A) : M A := fun st => (Normal a, st).

Definition bind {A B} (m : M A) (k : A -> M B) : M B :=
  fun st =>
    match m st with
    | (Normal a, st') => k a st'
    | (Throw e, st') => (Throw e, st')
    | (Continue, st') => (Continue, st')
    | (Return, st') => (Return, st')
    end.

Definition return_ {A} : M A := fun st => (Return, st).
Definition continue_ {A} : M A := fun st => (Continue, st).

(** [try { body } catch (error) { handler }] *)
Definition try_catch {A} (body : M A) (handler : JsError -> M A) : M A :=
  fun st =>
    match body st with
    | (Throw e, st') => handler e st'
    | r => r
    end.

Definition emit (e : Event) : M unit :=
  fun st =>
    (Normal tt,
     {| service := service st;
        log := log st ++ [e];
        updatedSecrets := updatedSecrets st |}).

(** [await client.method(request)]: the call is logged with its outcome
    and a rejection is thrown. *)
Definition await {A} (rq : Request) (method : S -> Settled A * S) : M A :=
  fun st =>
    let (r, s') := method (service st) in
    let st' := {| service := s';
                  log := log st ++ [Call rq (outcome r)];
                  updatedSecrets := updatedSecrets st |} in
    match r with
    | Fulfilled a => (Normal a, st')
    | Rejected e => (Throw e, st')
    end.

(** [updatedSecrets.push(k)] *)
Definition push (k : JSString) : M unit :=
  fun st =>
    (Normal tt,
     {| service := service st;
        log := log st;
        updatedSecrets := updatedSecrets st ++ [k] |}).

(** [const updatedSecrets = []] *)
Definition new_updatedSecrets : M unit :=
  fun st =>
    (Normal tt,
     {| service := service st; log := log st; updatedSecrets := [] |}).

Definition read_updatedSecrets : M (list JSString) :=
  fun st => (Normal (updatedSecrets st), st).

(** [for (const x of l) { body }] *)
Fixpoint for_of {A} (l : list A) (body : A -> M unit) : M unit :=
  match l with
  | [] => ret tt
  | x :: r =>
      fun st =>
        match body x st with
        | (Normal _, st') => for_of r body st'
        | (Continue, st') => for_of r body st'
        | (Throw e, st') => (Throw e, st')
        | (Return, st') => (Return, st')
        end
  end.

End Reconciler.

Arguments State S : clear implicits.
Arguments M S A : clear implicits.

Declare Scope js_scope.
Delimit Scope js_scope with js.
Notation "x <- m ;; k" := (bind m (fun x => k))
  (at level 61, m at next level, right associativity) : js_scope.
Notation "m ;; k" := (bind m (fun _ => k))
  (at level 61, right associativity) : js_scope.
Local Open Scope js_scope.

(** ** The action: src/main.js *)

(** Lines 97-107: the entries of the [secrets] input.  [item.split('=')]
    cuts at every '=' and the destructuring [[key, value]] keeps the first
    two pieces; [value] is [undefined] when there is only one. *)
Definition parseItem (item : JSString) : SecretEntry :=
  match split 61 item with
  | key :: value :: _ => {| key := trim key; value := trim value |}
  | [key] => {| key := trim key; value := trim [] |}
  | [] => {| key := []; value := [] |}
  end.

Definition parseSecrets (secrets : JSString) : list SecretEntry :=
  map parseItem
    (filter (fun item => Nat.ltb 0 (List.length item))
       (map trim (split 44 secrets))).

(** [!secret.key] *)
Definition emptyKey (secret : SecretEntry) : bool :=
  match key secret with
  | [] => true
  | _ :: _ => false
  end.

(** [`projects/${projectId}`] *)
Definition parentName (projectId : JSString) : JSString :=
  str "projects/" ++ projectId.

(** [`projects/${projectId}/secrets/${secret.key}`] *)
Definition secretName (projectId k : JSString) : JSString :=
  str "projects/" ++ projectId ++ str "/secrets/" ++ k.

(** [`${secretName}/versions/latest`] *)
Definition latestVersion (projectId k : JSString) : JSString :=
  secretName projectId k ++ str "/versions/latest".

(** [versionResponse.payload?.data?.toString('utf8')], [None] being
    [undefined]. *)
Definition currentSecretData (versionResponse : VersionResponse)
  : option JSString :=
  match payload versionResponse with
  | None => None
  | Some p =>
      match data p with
      | None => None
      | Some buf => Some (toString_utf8 buf)
      end
  end.

Module Msg.

Definition invalid_format : JSString :=
  str "Invalid secrets format: Found an entry with an empty key.".

Definition checking (k : JSString) (error : JsError) : JSString :=
  if instanceof_Error error
  then str "Error checking secret " ++ k ++ str ": " ++ message error
  else str "An unknown error occurred while checking secret " ++ k.

Definition creating (k : JSString) (error : JsError) : JSString :=
  if instanceof_Error error
  then str "Error creating secret " ++ k
         ++ str " or adding initial version: " ++ message error
  else str "An unknown error occurred while creating secret " ++ k.

Definition no_data (k : JSString) : JSString :=
  str "Could not retrieve current data for secret " ++ k
    ++ str ". Adding a new version.".

Definition updated (k : JSString) : JSString :=
  str "Updated secret " ++ k ++ str " with a new version.".

Definition up_to_date (k : JSString) : JSString :=
  str "Secret " ++ k ++ str " is already up-to-date.".

Definition no_latest (k : JSString) : JSString :=
  str "Secret " ++ k
    ++ str " exists but failed to access latest version (perhaps no enabled versions?). Adding a new version.".

Definition adding_after (k : JSString) (addVersionError : JsError) : JSString :=
  if instanceof_Error addVersionError
  then str "Error adding version to secret " ++ k
         ++ str " after failing to access latest: " ++ message addVersionError
  else str "An unknown error occurred while adding version to secret " ++ k.

Definition accessing (k : JSString) (error : JsError) : JSString :=
  if instanceof_Error error
  then str "Error accessing/updating secret " ++ k ++ str ": " ++ message error
  else str "An unknown error occurred while accessing/updating secret " ++ k.

Definition outer (error : JsError) : JSString :=
  if instanceof_Error error
  then message error
  else str "An unknown error occurred during action execution.".

End Msg.

Section Run.

Context {S : Type}.

(** [new SecretManagerServiceClient({ projectId })] *)
Variable SecretManagerServiceClient : JSString -> Client S.

Section Body.

Variable client : Client S.
Variables projectId parent : JSString.
Variable secret : SecretEntry.

(** [await client.addSecretVersion({ parent: secretName, payload: { data:
    Buffer.from(secret.value, 'utf8') } })] *)
Definition addVersion : M S unit :=
  let name := secretName projectId (key secret) in
  let buf := Buffer_from (value secret) in
  await (AddSecretVersion name buf) (addSecretVersion client name buf).

(** Lines 129-145. *)
Definition checkExists : M S bool :=
  let name := secretName projectId (key secret) in
  try_catch
    (await (GetSecret name) (getSecret client name) ;;
     ret true)
    (fun error =>
       if code_is 5 error then ret false
       else emit (SetFailed (Msg.checking (key secret) error)) ;; return_).

(** Lines 150-180. *)
Definition createPath : M S unit :=
  try_catch
    (await (CreateSecret parent (key secret) Automatic)
       (createSecret client parent (key secret) Automatic) ;;
     addVersion ;;
     push (key secret) ;;
     continue_)
    (fun error =>
       emit (SetFailed (Msg.creating (key secret) error)) ;; return_).

(** Lines 185-248. *)
Definition updatePath : M S unit :=
  let name := latestVersion projectId (key secret) in
  try_catch
    (versionResponse <-
       await (AccessSecretVersion name) (accessSecretVersion client name) ;;
     match currentSecretData versionResponse with
     | None =>
         emit (Warning (Msg.no_data (key secret))) ;;
         addVersion ;;
         push (key secret)
     | Some current =>
         if negb (JS.eqb current (value secret)) then
           addVersion ;;
           push (key secret) ;;
           emit (Info (Msg.updated (key secret)))
         else emit (Info (Msg.up_to_date (key secret)))
     end)
    (fun error =>
       if code_is 5 error then
         emit (Warning (Msg.no_latest (key secret))) ;;
         try_catch
           (addVersion ;;
            push (key secret))
           (fun addVersionError =>
              emit (SetFailed (Msg.adding_after (key secret) addVersionError)) ;;
              return_)
       else emit (SetFailed (Msg.accessing (key secret) error)) ;; return_).

(** Lines 125-248: one iteration of the loop over [secretsArray]. *)
Definition processSecret : M S unit :=
  secretExists <- checkExists ;;
  (if negb secretExists then createPath else ret tt) ;;
  (if secretExists then updatePath else ret tt).

End Body.

(** Lines 109-114. *)
Definition validate (secretsArray : list SecretEntry) : M S unit :=
  for_of secretsArray
    (fun secret =>
       if emptyKey secret
       then emit (SetFailed Msg.invalid_format) ;; return_
       else ret tt).

(** Lines 124-249: the loop alone. *)
Definition reconcile (client : Client S) (projectId parent : JSString)
    (secretsArray : list SecretEntry) : M S unit :=
  for_of secretsArray (processSecret client projectId parent).

(** Lines 97-257: [run] from its third statement on, given the strings
    that the two [core.getInput] calls of lines 94-95 returned for
    [project_id] and [secrets]; the function from its first line is
    [run_from_start] below.  A rejection is an object, so that reading
    [error.code] never throws: every rejection is caught by the handler
    around its call and the outer handler stays unused ([loop_spec]). *)
Definition run (projectId secrets : JSString) : M S unit :=
  let secretsArray := parseSecrets secrets in
  validate secretsArray ;;
  let client := SecretManagerServiceClient projectId in
  new_updatedSecrets ;;
  let parent := parentName projectId in
  try_catch
    (reconcile client projectId parent secretsArray ;;
     updated <- read_updatedSecrets ;;
     emit (SetOutput (str "updated_secrets") updated))
    (fun error => emit (SetFailed (Msg.outer error))).

(** The state in which the action starts, and the one it leaves. *)
Definition initial (s : S) : State S :=
  {| service := s; log := []; updatedSecrets := [] |}.

Definition run_action (projectId secrets : JSString) (s : S) : State S :=
  snd (run projectId secrets (initial s)).

End Run.

(** ** The inputs: lines 93-96 *)

(** What a call of a library function gives: a value, or an exception. *)
Inductive Returned (A : Type) :=
| Returns (a : A)
| Throws (e : JsError).
Arguments Returns {A} a.
Arguments Throws {A} e.

(** [core.getInput(name, { required })] of @actions/core, a package the
    action depends on: the value of the input in the environment, or the
    empty string when there is none; an empty value of a required input
    throws; any other value is returned trimmed. *)
Definition core_getInput (env : JSString -> option JSString)
    (name : JSString) (required : bool) : Returned JSString :=
  let val := match env name with Some v => v | None => [] end in
  match val with
  | [] =>
      if required
      then Throws {| code := None;
                     instanceof_Error := true;
                     message := str "Input required and not supplied: "
                                  ++ name |}
      else Returns (trim val)
  | _ :: _ => Returns (trim val)
  end.

(** The [getInput] of the test suite: the two strings, as they are. *)
Definition mock_getInput (projectId secrets : JSString)
    (name : JSString) (required : bool) : Returned JSString :=
  if JS.eqb name (str "project_id") then Returns projectId
  else if JS.eqb name (str "secrets") then Returns secrets
  else Returns [].

(** A call outside every [try]: an exception leaves the function. *)
Definition call {S A} (r : Returned A) : M S A :=
  fun st =>
    match r with
    | Returns a => (Normal a, st)
    | Throws e => (Throw e, st)
    end.

(** Lines 93-258: [run] from its first line.  [Throw] is the rejection of
    the promise that [run] returns. *)
Definition run_from_start {S}
    (getInput : JSString -> bool -> Returned JSString)
    (SecretManagerServiceClient : JSString -> Client S) : M S unit :=
  projectId <- call (getInput (str "project_id") true) ;;
  secrets <- call (getInput (str "secrets") true) ;;
  run SecretManagerServiceClient projectId secrets.

(** ** The parser in the words of the specification

    "Split on the first [=] into key and optional value": the value is
    everything after the first '='. *)

Fixpoint splitFirst (sep : N) (s : JSString) : JSString * option JSString :=
  match s with
  | [] => ([], None)
  | c :: r =>
      if c =? sep then ([], Some r)
      else let (k, v) := splitFirst sep r in (c :: k, v)
  end.

Definition parseItem_spec (item : JSString) : SecretEntry :=
  let (k, v) := splitFirst 61 item in
  {| key := trim k;
     value := trim (match v with Some x => x | None => [] end) |}.

Definition parseSecrets_spec (secrets : JSString) : list SecretEntry :=
  map parseItem_spec
    (filter (fun item => Nat.ltb 0 (List.length item))
       (map trim (split 44 secrets))).

(** ** What the log says *)

(** Parents of the add-version calls that succeeded, in order. *)
Fixpoint added (evs : list Event) : list JSString :=
  match evs with
  | [] => []
  | Call (AddSecretVersion p _) Ok :: r => p :: added r
  | _ :: r => added r
  end.

(** Ids of the secrets whose create call succeeded, in order. *)
Fixpoint created (evs : list Event) : list JSString :=
  match evs with
  | [] => []
  | Call (CreateSecret _ k _) Ok :: r => k :: created r
  | _ :: r => created r
  end.

(** Add-version calls issued, whatever their outcome. *)
Fixpoint addCalls (evs : list Event) : list (JSString * Buffer) :=
  match evs with
  | [] => []
  | Call (AddSecretVersion p d) _ :: r => (p, d) :: addCalls r
  | _ :: r => addCalls r
  end.

Definition isWarning (e : Event) : bool :=
  match e with
  | Warning _ => true
  | _ => false
  end.

(** An event that leaves the run going: no failure report, no output, and
    no rejection other than NOT_FOUND. *)
Definition quietEvent (e : Event) : bool :=
  match e with
  | Call _ Ok => true
  | Call _ (Failed err) => code_is 5 err
  | SetFailed _ => false
  | SetOutput _ _ => false
  | Warning _ => true
  | Info _ => true
  end.

Definition quiet (evs : list Event) : bool := forallb quietEvent evs.

(** The request is one of the calls [run] makes for this entry. *)
Definition concerns (projectId : JSString) (secret : SecretEntry)
    (rq : Request) : Prop :=
  rq = GetSecret (secretName projectId (key secret))
  \/ rq = CreateSecret (parentName projectId) (key secret) Automatic
  \/ rq = AddSecretVersion (secretName projectId (key secret))
            (Buffer_from (value secret))
  \/ rq = AccessSecretVersion (latestVersion projectId (key secret)).

(** The failure message contains the key and, for an [Error] instance, ends
    with the message of the error. *)
Definition names (k : JSString) (error : JsError) (msg : JSString) : Prop :=
  exists a b,
    msg = a ++ k ++ b
            ++ (if instanceof_Error error then message error else []).

(** ** Shapes of an execution *)

(** How an aborted iteration ends: the rejected call, then the failure
    report naming the entry; everything before is quiet. *)
Definition abortTail (projectId : JSString) (secret : SecretEntry)
    (evs : list Event) : Prop :=
  match rev evs with
  | SetFailed msg :: Call rq (Failed e) :: before =>
      quiet (rev before) = true
      /\ concerns projectId secret rq
      /\ names (key secret) e msg
  | _ => False
  end.

(** How a completed iteration ends: nothing fatal was logged, and the key
    was pushed exactly when an add-version call succeeded. *)
Definition stepDone (projectId : JSString) (secret : SecretEntry)
    (evs : list Event) (pushed : list JSString) : Prop :=
  quiet evs = true
  /\ (pushed = [] \/ pushed = [key secret])
  /\ added evs = map (secretName projectId) pushed
  /\ incl (created evs) pushed.

(** What holds of the state between two iterations: nothing fatal has been
    logged, the recorded keys are those of the add-version calls that
    succeeded, in order, and every secret created has its key recorded. *)
Definition Inv {S} (projectId : JSString) (st : State S) : Prop :=
  quiet (log st) = true
  /\ added (log st) = map (secretName projectId) (updatedSecrets st)
  /\ incl (created (log st)) (updatedSecrets st).

(** How an aborted loop ends. *)
Definition Aborted {S} (client : Client S) (projectId : JSString)
    (es : list SecretEntry) (st st' : State S) : Prop :=
  exists before secret after st1,
    es = before ++ secret :: after
    /\ reconcile client projectId (parentName projectId) before st
       = (Normal tt, st1)
    /\ processSecret client projectId (parentName projectId) secret st1
       = (Return, st')
    /\ exists pre rq e msg,
         log st' = pre ++ [Call rq (Failed e); SetFailed msg]
         /\ quiet pre = true
         /\ concerns projectId secret rq
         /\ names (key secret) e msg.

(** ** Traces of the loop

    The event sequences one iteration can produce, with the keys it
    pushes and whether it returns from [run]. *)

Definition isCall (e : Event) : bool :=
  match e with
  | Call _ _ => true
  | _ => false
  end.

(** [core.setFailed] and [core.setOutput]. *)
Definition isTerminal (e : Event) : bool :=
  match e with
  | SetFailed _ => true
  | SetOutput _ _ => true
  | _ => false
  end.

(** Names asked to [getSecret], in order. *)
Fixpoint getCalls (evs : list Event) : list JSString :=
  match evs with
  | [] => []
  | Call (GetSecret n) _ :: r => n :: getCalls r
  | _ :: r => getCalls r
  end.

(** [l] with some elements left out, the order kept. *)
Inductive Subsequence {A : Type} : list A -> list A -> Prop :=
| sub_nil : Subsequence [] []
| sub_skip x l m : Subsequence l m -> Subsequence l (x :: m)
| sub_take x l m : Subsequence l m -> Subsequence (x :: l) (x :: m).

Section Traces.

Variable projectId : JSString.

Section OneEntry.

Variable secret : SecretEntry.

Local Notation G o := (Call (GetSecret (secretName projectId (key secret))) o).
Local Notation C o :=
  (Call (CreateSecret (parentName projectId) (key secret) Automatic) o).
Local Notation A o :=
  (Call (AddSecretVersion (secretName projectId (key secret))
           (Buffer_from (value secret))) o).
Local Notation V o :=
  (Call (AccessSecretVersion (latestVersion projectId (key secret))) o).

(** Lines 219-236: the warning and the add-version call made after a
    NOT_FOUND on the update path. *)
Inductive Recovery : list Event -> list JSString -> bool -> Prop :=
| rec_added :
    Recovery [Warning (Msg.no_latest (key secret)); A Ok] [key secret] false
| rec_failed e :
    Recovery [Warning (Msg.no_latest (key secret)); A (Failed e);
              SetFailed (Msg.adding_after (key secret) e)] [] true.

Inductive Iteration : list Event -> list JSString -> bool -> Prop :=
| it_check_failed e :
    code_is 5 e = false ->
    Iteration [G (Failed e); SetFailed (Msg.checking (key secret) e)] [] true
| it_create_failed e e' :
    code_is 5 e = true ->
    Iteration [G (Failed e); C (Failed e');
               SetFailed (Msg.creating (key secret) e')] [] true
| it_first_version_failed e e' :
    code_is 5 e = true ->
    Iteration [G (Failed e); C Ok; A (Failed e');
               SetFailed (Msg.creating (key secret) e')] [] true
| it_created e :
    code_is 5 e = true ->
    Iteration [G (Failed e); C Ok; A Ok] [key secret] false
| it_access_failed e :
    code_is 5 e = false ->
    Iteration [G Ok; V (Failed e);
               SetFailed (Msg.accessing (key secret) e)] [] true
| it_no_version e evs pushed aborted :
    code_is 5 e = true ->
    Recovery evs pushed aborted ->
    Iteration (G Ok :: V (Failed e) :: evs) pushed aborted
| it_no_data_added :
    Iteration [G Ok; V Ok; Warning (Msg.no_data (key secret)); A Ok]
      [key secret] false
| it_no_data_failed e :
    code_is 5 e = false ->
    Iteration [G Ok; V Ok; Warning (Msg.no_data (key secret)); A (Failed e);
               SetFailed (Msg.accessing (key secret) e)] [] true
| it_no_data_retried e evs pushed aborted :
    code_is 5 e = true ->
    Recovery evs pushed aborted ->
    Iteration (G Ok :: V Ok :: Warning (Msg.no_data (key secret))
                 :: A (Failed e) :: evs) pushed aborted
| it_updated :
    Iteration [G Ok; V Ok; A Ok; Info (Msg.updated (key secret))]
      [key secret] false
| it_update_failed e :
    code_is 5 e = false ->
    Iteration [G Ok; V Ok; A (Failed e);
               SetFailed (Msg.accessing (key secret) e)] [] true
| it_update_retried e evs pushed aborted :
    code_is 5 e = true ->
    Recovery evs pushed aborted ->
    Iteration (G Ok :: V Ok :: A (Failed e) :: evs) pushed aborted
| it_up_to_date :
    Iteration [G Ok; V Ok; Info (Msg.up_to_date (key secret))] [] false.

End OneEntry.

(** The iterations of the loop over a list of entries, up to the first
    one that returns. *)
Inductive Iterations :
  list SecretEntry -> list Event -> list JSString -> bool -> Prop :=
| its_done : Iterations [] [] [] false
| its_abort secret es evs pushed :
    Iteration secret evs pushed true ->
    Iterations (secret :: es) evs pushed true
| its_next secret es evs pushed evs' pushed' aborted :
    Iteration secret evs pushed false ->
    Iterations es evs' pushed' aborted ->
    Iterations (secret :: es) (evs ++ evs') (pushed ++ pushed') aborted.

End Traces.

(** ** Well-formed strings *)

(** No lone surrogate, and code units of 16 bits. *)
Fixpoint wellFormed (s : JSString) : bool :=
  match s with
  | [] => true
  | c :: r =>
      if isHighSurrogate c then
        match r with
        | lo :: r' => isLowSurrogate lo && wellFormed r'
        | [] => false
        end
      else negb (isLowSurrogate c) && (c <? 65536) && wellFormed r
  end.

(** No white space at either end. *)
Definition Trimmed (s : JSString) : Prop :=
  (forall c r, s = c :: r -> isWhiteSpace c = false)
  /\ (forall r c, s = r ++ [c] -> isWhiteSpace c = false).

(** ** Two concrete clients *)

Module Mock.

(** The mocks of the test suite: answers queued with
    [mockResolvedValueOnce] / [mockRejectedValueOnce], then the defaults
    installed by [beforeEach]. *)
Record Queues := {
  getSecret_q : list (Settled unit);
  createSecret_q : list (Settled unit);
  addSecretVersion_q : list (Settled unit);
  accessSecretVersion_q : list (Settled VersionResponse)
}.

Definition plain (c : N) (msg : string) : JsError :=
  {| code := Some c; instanceof_Error := false; message := str msg |}.

Definition new_Error (msg : string) : JsError :=
  {| code := None; instanceof_Error := true; message := str msg |}.

Definition client : Client Queues :=
  {| getSecret := fun _ q =>
       match getSecret_q q with
       | r :: t =>
           (r, {| getSecret_q := t;
                  createSecret_q := createSecret_q q;
                  addSecretVersion_q := addSecretVersion_q q;
                  accessSecretVersion_q := accessSecretVersion_q q |})
       | [] => (Rejected (plain 5 "Secret not found"), q)
       end;
     createSecret := fun _ _ _ q =>
       match createSecret_q q with
       | r :: t =>
           (r, {| getSecret_q := getSecret_q q;
                  createSecret_q := t;
                  addSecretVersion_q := addSecretVersion_q q;
                  accessSecretVersion_q := accessSecretVersion_q q |})
       | [] => (Fulfilled tt, q)
       end;
     addSecretVersion := fun _ _ q =>
       match addSecretVersion_q q with
       | r :: t =>
           (r, {| getSecret_q := getSecret_q q;
                  createSecret_q := createSecret_q q;
                  addSecretVersion_q := t;
                  accessSecretVersion_q := accessSecretVersion_q q |})
       | [] => (Fulfilled tt, q)
       end;
     accessSecretVersion := fun _ q =>
       match accessSecretVersion_q q with
       | r :: t =>
           (r, {| getSecret_q := getSecret_q q;
                  createSecret_q := createSecret_q q;
                  addSecretVersion_q := addSecretVersion_q q;
                  accessSecretVersion_q := t |})
       | [] => (Rejected (plain 5 "Version not found"), q)
       end |}.

Definition version (buf : Buffer) : VersionResponse :=
  {| payload := Some {| data := Some buf |} |}.

Definition defaults : Queues :=
  {| getSecret_q := []; createSecret_q := [];
     addSecretVersion_q := []; accessSecretVersion_q := [] |}.

End Mock.

Module Memory.

(** A service that keeps, for every secret name, its versions, oldest
    first. *)
Definition Store := list (JSString * list Buffer).

Definition status (c : N) (msg : string) : JsError :=
  {| code := Some c; instanceof_Error := true; message := str msg |}.

Fixpoint lookup (name : JSString) (st : Store) : option (list Buffer) :=
  match st with
  | [] => None
  | (n, vs) :: r => if JS.eqb n name then Some vs else lookup name r
  end.

Fixpoint append (name : JSString) (buf : Buffer) (st : Store) : Store :=
  match st with
  | [] => []
  | (n, vs) :: r =>
      if JS.eqb n name then (n, vs ++ [buf]) :: r
      else (n, vs) :: append name buf r
  end.

Fixpoint latest (name : JSString) (st : Store) : option (list Buffer) :=
  match st with
  | [] => None
  | (n, vs) :: r =>
      if JS.eqb (n ++ str "/versions/latest") name then Some vs
      else latest name r
  end.

Definition client : Client Store :=
  {| getSecret := fun name st =>
       match lookup name st with
       | Some _ => (Fulfilled tt, st)
       | None => (Rejected (status 5 "NOT_FOUND"), st)
       end;
     createSecret := fun parent secretId _ st =>
       let name := parent ++ str "/secrets/" ++ secretId in
       match lookup name st with
       | Some _ => (Rejected (status 6 "ALREADY_EXISTS"), st)
       | None => (Fulfilled tt, st ++ [(name, [])])
       end;
     addSecretVersion := fun parent buf st =>
       match lookup parent st with
       | Some _ => (Fulfilled tt, append parent buf st)
       | None => (Rejected (status 5 "NOT_FOUND"), st)
       end;
     accessSecretVersion := fun name st =>
       match latest name st with
       | Some (v :: vs) =>
           (Fulfilled {| payload := Some {| data := Some (last vs v) |} |}, st)
       | _ => (Rejected (status 5 "NOT_FOUND"), st)
       end |}.

End Memory.

(** Inputs taken from the test suite, and a few more. *)
Module Fixture.

Import Mock.

Definition project : JSString := str "test-project-123".

Definition entry (k v : string) : SecretEntry :=
  {| key := str k; value := str v |}.

Definition found : Settled unit := Fulfilled tt.

Definition holds (v : string) : Settled VersionResponse :=
  Fulfilled (version (Buffer_from (str v))).

(** [mockGetSecret.mockResolvedValue([{}])] with the latest version
    holding [v]. *)
Definition existing (v : string) : Queues :=
  {| getSecret_q := [found]; createSecret_q := [];
     addSecretVersion_q := []; accessSecretVersion_q := [holds v] |}.

(** The same, the first add-version call being rejected with [e]. *)
Definition existing_add_rejected (v : string) (e : JsError) : Queues :=
  {| getSecret_q := [found]; createSecret_q := [];
     addSecretVersion_q := [Rejected e];
     accessSecretVersion_q := [holds v] |}.

(** The secret exists, the access of its latest version is rejected with
    NOT_FOUND. *)
Definition no_version : Queues :=
  {| getSecret_q := [found]; createSecret_q := [];
     addSecretVersion_q := []; accessSecretVersion_q := [] |}.

(** The secret exists, the latest version comes without payload. *)
Definition no_payload : Queues :=
  {| getSecret_q := [found]; createSecret_q := [];
     addSecretVersion_q := [];
     accessSecretVersion_q := [Fulfilled {| payload := None |}] |}.

(** The secret exists, the latest version holds the single byte 0xFF. *)
Definition invalid_utf8 : Queues :=
  {| getSecret_q := [found]; createSecret_q := [];
     addSecretVersion_q := [];
     accessSecretVersion_q := [Fulfilled (version [255])] |}.

(** [mockCreateSecret.mockRejectedValue(new Error(...))] *)
Definition create_fails : Queues :=
  {| getSecret_q := [];
     createSecret_q := [Rejected (new_Error "API Error during creation")];
     addSecretVersion_q := []; accessSecretVersion_q := [] |}.

(** The existence check is rejected with a plain object of code 7. *)
Definition check_fails_plain : Queues :=
  {| getSecret_q := [Rejected (plain 7 "boom")]; createSecret_q := [];
     addSecretVersion_q := []; accessSecretVersion_q := [] |}.

(** One secret absent, one with another value, one with the same value. *)
Definition multi : Queues :=
  {| getSecret_q := [Rejected (plain 5 "Secret not found"); found; found];
     createSecret_q := []; addSecretVersion_q := [];
     accessSecretVersion_q := [holds "update_old_val"; holds "nochange_val"] |}.

(** The secret exists, the latest version comes without payload and the
    add-version call is rejected with [e]. *)
Definition no_payload_add_rejected (e : JsError) : Queues :=
  {| getSecret_q := [found]; createSecret_q := [];
     addSecretVersion_q := [Rejected e];
     accessSecretVersion_q := [Fulfilled {| payload := None |}] |}.

(** The inputs of the action, as the workflow supplies them. *)
Definition inputs (projectId secrets : string)
    (name : JSString) : option JSString :=
  if JS.eqb name (str "project_id") then Some (str projectId)
  else if JS.eqb name (str "secrets") then Some (str secrets)
  else None.

End Fixture.

(** * Properties *)

Example trim_ex : trim (str "  KEY_ONE ") = str "KEY_ONE".
Proof. reflexivity. Qed.

Example split_ex :
  split 44 (str "a, ,,b") = [str "a"; str " "; str ""; str "b"].
Proof. reflexivity. Qed.

Example split_empty_ex : split 44 (str "") = [str ""].
Proof. reflexivity. Qed.

Example utf8_ascii_ex : Buffer_from (str "val1") = [118; 97; 108; 49].
Proof. reflexivity. Qed.

(** U+00E9, U+20AC and the pair D83D DE00 (U+1F600). *)
Example utf8_multibyte_ex :
  Buffer_from [233; 8364; 55357; 56832]
  = [195; 169; 226; 130; 172; 240; 159; 152; 128]
  /\ toString_utf8 [195; 169; 226; 130; 172; 240; 159; 152; 128]
     = [233; 8364; 55357; 56832].
Proof. split; reflexivity. Qed.

Example utf8_invalid_ex :
  toString_utf8 [255] = [65533] /\ toString_utf8 [226; 130] = [65533]
  /\ toString_utf8 [224; 128; 65] = [65533; 65533; 65].
Proof. repeat split; reflexivity. Qed.


(** ** Strings *)

(** The byte 0xFF is the UTF-8 encoding of no string. *)
Lemma not_utf8 (s : JSString) : Buffer_from s <> [255].
Proof.
  destruct s as [|c r]; [discriminate|].
  cbn [Buffer_from].
  destruct (N.ltb_spec c 128) as [H|H].
  { intros E; injection E as E _; lia. }
  intros E. apply (f_equal (@List.length N)) in E. revert E.
  destruct (c <? 2048); [cbn [List.length]; discriminate|].
  destruct (isHighSurrogate c).
  { destruct r as [|lo r']; [cbn [List.length replacement_bytes]; discriminate|].
    destruct (isLowSurrogate lo); unfold encode4, replacement_bytes;
      cbn [List.length app]; discriminate. }
  destruct (isLowSurrogate c); unfold encode3, replacement_bytes;
    cbn [List.length app]; discriminate.
Qed.

#[local] Arguments str : simpl never.
#[local] Arguments parentName : simpl never.
#[local] Arguments secretName : simpl never.
#[local] Arguments latestVersion : simpl never.
#[local] Arguments Buffer_from : simpl never.

Lemma eqb_eq (a b : JSString) : JS.eqb a b = true <-> a = b.
Proof.
  revert b; induction a as [|x a IH]; destruct b as [|y b]; simpl;
    try (split; congruence).
  rewrite andb_true_iff, N.eqb_eq, IH.
  split; [intros [-> ->]; reflexivity | intros H; inversion H; auto].
Qed.

Lemma eqb_neq (a b : JSString) : JS.eqb a b = false <-> a <> b.
Proof.
  rewrite <- eqb_eq. destruct (JS.eqb a b); split; congruence.
Qed.

Lemma code_is_5 (e : JsError) : code e = Some 5 -> code_is 5 e = true.
Proof. unfold code_is; intros ->; reflexivity. Qed.

Lemma secretName_inj (projectId a b : JSString) :
  secretName projectId a = secretName projectId b -> a = b.
Proof.
  unfold secretName; intros H.
  repeat apply app_inv_head in H. exact H.
Qed.

(** ** One iteration of the loop *)

Ltac unfold_body :=
  unfold processSecret, checkExists, createPath, updatePath, addVersion,
    try_catch, bind, await, emit, push, ret, return_, continue_.

Ltac flatten_log := repeat rewrite <- app_assoc; simpl.

Section Entry.

Context {S : Type} (client : Client S).
Variable projectId : JSString.
Variable secret : SecretEntry.

Local Notation parent := (parentName projectId).
Local Notation name := (secretName projectId (key secret)).
Local Notation buf := (Buffer_from (value secret)).
Local Notation process := (processSecret client projectId parent secret).

Local Notation get o := (Call (GetSecret name) o).
Local Notation create o :=
  (Call (CreateSecret parent (key secret) Automatic) o).
Local Notation add o := (Call (AddSecretVersion name buf) o).
Local Notation access o :=
  (Call (AccessSecretVersion (latestVersion projectId (key secret))) o).

(** C2 (amended).  When the existence check is rejected with code 5, the
    iteration issues one create call for the key, under the project and
    with automatic replication.  If it is rejected, nothing else is called
    and the run reports the failure.  If it succeeds, one add-version call
    with the UTF-8 bytes of the value follows; the key is recorded when
    that call succeeds too, and the run reports the failure otherwise. *)
Theorem create_path_calls (st : State S) e s1 rc s2 :
  getSecret client name (service st) = (Rejected e, s1) ->
  code e = Some 5 ->
  createSecret client parent (key secret) Automatic s1 = (rc, s2) ->
  match rc with
  | Rejected err =>
      process st =
        (Return,
         {| service := s2;
            log := log st ++ [get (Failed e); create (Failed err);
                              SetFailed (Msg.creating (key secret) err)];
            updatedSecrets := updatedSecrets st |})
  | Fulfilled _ =>
      forall ra s3,
        addSecretVersion client name buf s2 = (ra, s3) ->
        process st =
          match ra with
          | Fulfilled _ =>
              (Continue,
               {| service := s3;
                  log := log st ++ [get (Failed e); create Ok; add Ok];
                  updatedSecrets := updatedSecrets st ++ [key secret] |})
          | Rejected err =>
              (Return,
               {| service := s3;
                  log := log st ++ [get (Failed e); create Ok;
                                    add (Failed err);
                                    SetFailed (Msg.creating (key secret) err)];
                  updatedSecrets := updatedSecrets st |})
          end
  end.
Proof.
  intros Hget Hcode Hcreate.
  apply code_is_5 in Hcode.
  destruct rc as [[]|err].
  - intros ra s3 Hadd.
    unfold_body; simpl. rewrite Hget; simpl. rewrite Hcode; simpl.
    rewrite Hcreate; simpl. rewrite Hadd.
    destruct ra as [[]|err]; simpl; flatten_log; reflexivity.
  - unfold_body; simpl. rewrite Hget; simpl. rewrite Hcode; simpl.
    rewrite Hcreate; simpl. flatten_log; reflexivity.
Qed.

Lemma abort_skips_rest (st st' : State S) rest :
  process st = (Return, st') ->
  reconcile client projectId parent (secret :: rest) st = (Return, st').
Proof. unfold reconcile; simpl; intros ->; reflexivity. Qed.

(** C1 (amended).  The secret exists and its latest payload decodes to a
    string.  If the string equals the desired value, the iteration makes no
    create and no add-version call and does not record the key.  If it
    differs, an add-version call with the UTF-8 bytes of the desired value
    is made, whatever its outcome.  When it succeeds it is the only one and
    the key is recorded.  When it is rejected with code 5, a warning and
    one more add-version call follow, and the key is recorded if that one
    succeeds.  When it is rejected with another error, or when the second
    call is rejected, the failure is reported and the key is not
    recorded. *)
Theorem existing_secret_compare (st : State S) s1 vr s2 current :
  getSecret client name (service st) = (Fulfilled tt, s1) ->
  accessSecretVersion client (latestVersion projectId (key secret)) s1
    = (Fulfilled vr, s2) ->
  currentSecretData vr = Some current ->
  (current = value secret ->
   process st =
     (Normal tt,
      {| service := s2;
         log := log st ++ [get Ok; access Ok;
                           Info (Msg.up_to_date (key secret))];
         updatedSecrets := updatedSecrets st |}))
  /\ (current <> value secret ->
      forall ra s3,
        addSecretVersion client name buf s2 = (ra, s3) ->
        match ra with
        | Fulfilled _ =>
            process st =
              (Normal tt,
               {| service := s3;
                  log := log st ++ [get Ok; access Ok; add Ok;
                                    Info (Msg.updated (key secret))];
                  updatedSecrets := updatedSecrets st ++ [key secret] |})
        | Rejected e =>
            if code_is 5 e then
              forall ra' s4,
                addSecretVersion client name buf s3 = (ra', s4) ->
                process st =
                  match ra' with
                  | Fulfilled _ =>
                      (Normal tt,
                       {| service := s4;
                          log := log st
                                   ++ [get Ok; access Ok; add (Failed e);
                                       Warning (Msg.no_latest (key secret));
                                       add Ok];
                          updatedSecrets :=
                            updatedSecrets st ++ [key secret] |})
                  | Rejected e' =>
                      (Return,
                       {| service := s4;
                          log := log st
                                   ++ [get Ok; access Ok; add (Failed e);
                                       Warning (Msg.no_latest (key secret));
                                       add (Failed e');
                                       SetFailed
                                         (Msg.adding_after (key secret) e')];
                          updatedSecrets := updatedSecrets st |})
                  end
            else
              process st =
                (Return,
                 {| service := s3;
                    log := log st
                             ++ [get Ok; access Ok; add (Failed e);
                                 SetFailed (Msg.accessing (key secret) e)];
                    updatedSecrets := updatedSecrets st |})
        end).
Proof.
  intros Hget Hacc Hcur; split.
  - intros Heq. apply eqb_eq in Heq.
    unfold_body; simpl. rewrite Hget; simpl. rewrite Hacc; simpl.
    rewrite Hcur, Heq; simpl. flatten_log; reflexivity.
  - intros Hneq ra s3 Hadd. apply eqb_neq in Hneq.
    destruct ra as [[]|e].
    + unfold_body; simpl. rewrite Hget; simpl. rewrite Hacc; simpl.
      rewrite Hcur, Hneq; simpl. rewrite Hadd; simpl.
      flatten_log; reflexivity.
    + destruct (code_is 5 e) eqn:Hcode.
      * intros ra' s4 Hadd'.
        unfold_body; simpl. rewrite Hget; simpl. rewrite Hacc; simpl.
        rewrite Hcur, Hneq; simpl. rewrite Hadd; simpl.
        rewrite Hcode; simpl. rewrite Hadd'.
        destruct ra' as [[]|e']; simpl; flatten_log; reflexivity.
      * unfold_body; simpl. rewrite Hget; simpl. rewrite Hacc; simpl.
        rewrite Hcur, Hneq; simpl. rewrite Hadd; simpl.
        rewrite Hcode; simpl. flatten_log; reflexivity.
Qed.

(** C6.  The secret exists and the access of its latest version is
    rejected with code 5: a warning is emitted and exactly one add-version
    call with the bytes of the desired value is made.  When it succeeds the
    key is recorded; when it fails the failure is reported and the loop
    stops, whatever entries remain. *)
Theorem no_latest_version_adds (st : State S) s1 e s2 ra s3 :
  getSecret client name (service st) = (Fulfilled tt, s1) ->
  accessSecretVersion client (latestVersion projectId (key secret)) s1
    = (Rejected e, s2) ->
  code e = Some 5 ->
  addSecretVersion client name buf s2 = (ra, s3) ->
  match ra with
  | Fulfilled _ =>
      process st =
        (Normal tt,
         {| service := s3;
            log := log st ++ [get Ok; access (Failed e);
                              Warning (Msg.no_latest (key secret)); add Ok];
            updatedSecrets := updatedSecrets st ++ [key secret] |})
  | Rejected err =>
      let st' :=
        {| service := s3;
           log := log st ++ [get Ok; access (Failed e);
                             Warning (Msg.no_latest (key secret));
                             add (Failed err);
                             SetFailed (Msg.adding_after (key secret) err)];
           updatedSecrets := updatedSecrets st |} in
      process st = (Return, st')
      /\ forall rest,
           reconcile client projectId parent (secret :: rest) st
           = (Return, st')
  end.
Proof.
  intros Hget Hacc Hcode Hadd. apply code_is_5 in Hcode.
  assert (E : process st =
              match ra with
              | Fulfilled _ =>
                  (Normal tt,
                   {| service := s3;
                      log := log st ++ [get Ok; access (Failed e);
                                        Warning (Msg.no_latest (key secret));
                                        add Ok];
                      updatedSecrets := updatedSecrets st ++ [key secret] |})
              | Rejected err =>
                  (Return,
                   {| service := s3;
                      log := log st ++ [get Ok; access (Failed e);
                                        Warning (Msg.no_latest (key secret));
                                        add (Failed err);
                                        SetFailed
                                          (Msg.adding_after (key secret) err)];
                      updatedSecrets := updatedSecrets st |})
              end).
  { unfold_body; simpl. rewrite Hget; simpl. rewrite Hacc; simpl.
    rewrite Hcode; simpl. rewrite Hadd.
    destruct ra as [[]|err]; simpl; flatten_log; reflexivity. }
  destruct ra as [[]|err]; [exact E|].
  split; [exact E | intros rest; apply abort_skips_rest; exact E].
Qed.

(** C7 (amended).  The secret exists and the access of its latest version
    succeeds with no payload, or with a payload that has no data: a warning
    is emitted and an add-version call with the bytes of the desired value
    is made, whatever its outcome.  When it succeeds the key is recorded.
    When it is rejected with code 5, a second warning and one more
    add-version call follow, and the key is recorded if that one succeeds.
    When it is rejected with another error, or when the second call is
    rejected, the failure is reported and the key is not recorded. *)
Theorem absent_payload_updates (st : State S) s1 vr s2 ra s3 :
  getSecret client name (service st) = (Fulfilled tt, s1) ->
  accessSecretVersion client (latestVersion projectId (key secret)) s1
    = (Fulfilled vr, s2) ->
  (payload vr = None \/ exists p, payload vr = Some p /\ data p = None) ->
  addSecretVersion client name buf s2 = (ra, s3) ->
  match ra with
  | Fulfilled _ =>
      process st =
        (Normal tt,
         {| service := s3;
            log := log st ++ [get Ok; access Ok;
                              Warning (Msg.no_data (key secret)); add Ok];
            updatedSecrets := updatedSecrets st ++ [key secret] |})
  | Rejected e =>
      if code_is 5 e then
        forall ra' s4,
          addSecretVersion client name buf s3 = (ra', s4) ->
          process st =
            match ra' with
            | Fulfilled _ =>
                (Normal tt,
                 {| service := s4;
                    log := log st
                             ++ [get Ok; access Ok;
                                 Warning (Msg.no_data (key secret));
                                 add (Failed e);
                                 Warning (Msg.no_latest (key secret));
                                 add Ok];
                    updatedSecrets := updatedSecrets st ++ [key secret] |})
            | Rejected e' =>
                (Return,
                 {| service := s4;
                    log := log st
                             ++ [get Ok; access Ok;
                                 Warning (Msg.no_data (key secret));
                                 add (Failed e);
                                 Warning (Msg.no_latest (key secret));
                                 add (Failed e');
                                 SetFailed
                                   (Msg.adding_after (key secret) e')];
                    updatedSecrets := updatedSecrets st |})
            end
      else
        process st =
          (Return,
           {| service := s3;
              log := log st
                       ++ [get Ok; access Ok;
                           Warning (Msg.no_data (key secret));
                           add (Failed e);
                           SetFailed (Msg.accessing (key secret) e)];
              updatedSecrets := updatedSecrets st |})
  end.
Proof.
  intros Hget Hacc Habs Hadd.
  assert (Hcur : currentSecretData vr = None).
  { unfold currentSecretData.
    destruct Habs as [-> | (p & -> & ->)]; reflexivity. }
  destruct ra as [[]|e].
  - unfold_body; simpl. rewrite Hget; simpl. rewrite Hacc; simpl.
    rewrite Hcur; simpl. rewrite Hadd; simpl. flatten_log; reflexivity.
  - destruct (code_is 5 e) eqn:Hcode.
    + intros ra' s4 Hadd'.
      unfold_body; simpl. rewrite Hget; simpl. rewrite Hacc; simpl.
      rewrite Hcur; simpl. rewrite Hadd; simpl.
      rewrite Hcode; simpl. rewrite Hadd'.
      destruct ra' as [[]|e']; simpl; flatten_log; reflexivity.
    + unfold_body; simpl. rewrite Hget; simpl. rewrite Hacc; simpl.
      rewrite Hcur; simpl. rewrite Hadd; simpl.
      rewrite Hcode; simpl. flatten_log; reflexivity.
Qed.

(** C10.  On the update path, when the add-version call of the
    absent-data branch or of the different-value branch is itself rejected
    with code 5, the run goes on: a warning is emitted and one more
    add-version call is made for the same key.  The key is recorded when
    that second call succeeds; when it fails the failure is reported and
    the loop stops. *)
Theorem add_rejected_not_found_retries (st : State S) s1 vr s2 e s3 ra s4 :
  getSecret client name (service st) = (Fulfilled tt, s1) ->
  accessSecretVersion client (latestVersion projectId (key secret)) s1
    = (Fulfilled vr, s2) ->
  (forall current,
     currentSecretData vr = Some current -> current <> value secret) ->
  addSecretVersion client name buf s2 = (Rejected e, s3) ->
  code e = Some 5 ->
  addSecretVersion client name buf s3 = (ra, s4) ->
  let seen :=
    log st ++ [get Ok; access Ok]
      ++ match currentSecretData vr with
         | None => [Warning (Msg.no_data (key secret))]
         | Some _ => []
         end
      ++ [add (Failed e); Warning (Msg.no_latest (key secret))] in
  match ra with
  | Fulfilled _ =>
      process st =
        (Normal tt,
         {| service := s4;
            log := seen ++ [add Ok];
            updatedSecrets := updatedSecrets st ++ [key secret] |})
  | Rejected err =>
      let st' :=
        {| service := s4;
           log := seen ++ [add (Failed err);
                           SetFailed (Msg.adding_after (key secret) err)];
           updatedSecrets := updatedSecrets st |} in
      process st = (Return, st')
      /\ forall rest,
           reconcile client projectId parent (secret :: rest) st
           = (Return, st')
  end.
Proof.
  intros Hget Hacc Hdiff Hadd1 Hcode Hadd2 seen. apply code_is_5 in Hcode.
  assert (E : process st =
              match ra with
              | Fulfilled _ =>
                  (Normal tt,
                   {| service := s4;
                      log := seen ++ [add Ok];
                      updatedSecrets := updatedSecrets st ++ [key secret] |})
              | Rejected err =>
                  (Return,
                   {| service := s4;
                      log := seen ++ [add (Failed err);
                                      SetFailed
                                        (Msg.adding_after (key secret) err)];
                      updatedSecrets := updatedSecrets st |})
              end).
  { subst seen. unfold_body; simpl. rewrite Hget; simpl. rewrite Hacc; simpl.
    destruct (currentSecretData vr) as [current|] eqn:Hcur; simpl.
    - specialize (Hdiff current eq_refl). apply eqb_neq in Hdiff.
      rewrite Hdiff; simpl. rewrite Hadd1; simpl. rewrite Hcode; simpl.
      rewrite Hadd2.
      destruct ra as [[]|err]; simpl; flatten_log; reflexivity.
    - rewrite Hadd1; simpl. rewrite Hcode; simpl. rewrite Hadd2.
      destruct ra as [[]|err]; simpl; flatten_log; reflexivity. }
  destruct ra as [[]|err]; [exact E|].
  split; [exact E | intros rest; apply abort_skips_rest; exact E].
Qed.

End Entry.

(** ** What one iteration can do *)

Lemma added_app (l r : list Event) : added (l ++ r) = added l ++ added r.
Proof.
  induction l as [|[[| | |] []| | | |] l IH]; simpl; congruence.
Qed.

Lemma created_app (l r : list Event) :
  created (l ++ r) = created l ++ created r.
Proof.
  induction l as [|[[| | |] []| | | |] l IH]; simpl; congruence.
Qed.

Lemma quiet_app (l r : list Event) : quiet (l ++ r) = quiet l && quiet r.
Proof. apply forallb_app. Qed.

Lemma names_checking k e : names k e (Msg.checking k e).
Proof.
  unfold names, Msg.checking. destruct (instanceof_Error e).
  - exists (str "Error checking secret "), (str ": "); reflexivity.
  - exists (str "An unknown error occurred while checking secret "), [].
    simpl. rewrite app_nil_r. reflexivity.
Qed.

Lemma names_creating k e : names k e (Msg.creating k e).
Proof.
  unfold names, Msg.creating. destruct (instanceof_Error e).
  - exists (str "Error creating secret "),
      (str " or adding initial version: "); reflexivity.
  - exists (str "An unknown error occurred while creating secret "), [].
    simpl. rewrite app_nil_r. reflexivity.
Qed.

Lemma names_adding_after k e : names k e (Msg.adding_after k e).
Proof.
  unfold names, Msg.adding_after. destruct (instanceof_Error e).
  - exists (str "Error adding version to secret "),
      (str " after failing to access latest: "); reflexivity.
  - exists (str "An unknown error occurred while adding version to secret "),
      [].
    simpl. rewrite app_nil_r. reflexivity.
Qed.

Lemma names_accessing k e : names k e (Msg.accessing k e).
Proof.
  unfold names, Msg.accessing. destruct (instanceof_Error e).
  - exists (str "Error accessing/updating secret "), (str ": "); reflexivity.
  - exists
      (str "An unknown error occurred while accessing/updating secret "), [].
    simpl. rewrite app_nil_r. reflexivity.
Qed.

Create HintDb names.
#[local] Hint Resolve names_checking names_creating names_adding_after
  names_accessing : names.

Section Step.

Context {S : Type} (client : Client S).
Variable projectId : JSString.
Variable secret : SecretEntry.

Local Notation process :=
  (processSecret client projectId (parentName projectId) secret).

Ltac split_calls :=
  repeat match goal with
    | |- context [getSecret ?c ?n ?s] =>
        destruct (getSecret c n s) as [[[]|?] ?]; simpl
    | |- context [createSecret ?c ?p ?k ?r ?s] =>
        destruct (createSecret c p k r s) as [[[]|?] ?]; simpl
    | |- context [accessSecretVersion ?c ?n ?s] =>
        destruct (accessSecretVersion c n s) as [[?|?] ?]; simpl
    | |- context [addSecretVersion ?c ?n ?b ?s] =>
        destruct (addSecretVersion c n b s) as [[[]|?] ?]; simpl
    | |- context [code_is 5 ?e] => destruct (code_is 5 e) eqn:?; simpl
    | |- context [currentSecretData ?v] =>
        destruct (currentSecretData v); simpl
    | |- context [JS.eqb ?a ?b] => destruct (JS.eqb a b); simpl
    end.

Ltac close_step :=
  unfold stepDone, abortTail, concerns; simpl;
  repeat match goal with
    | H : code_is 5 _ = true |- _ => rewrite H; clear H
    end;
  simpl;
  repeat split;
  auto with names;
  try apply incl_refl;
  try apply incl_nil_l.

Lemma process_spec (st : State S) :
  exists evs pushed,
    log (snd (process st)) = log st ++ evs
    /\ updatedSecrets (snd (process st)) = updatedSecrets st ++ pushed
    /\ match fst (process st) with
       | Normal _ | Continue => stepDone projectId secret evs pushed
       | Return => pushed = [] /\ abortTail projectId secret evs
       | Throw _ => False
       end.
Proof.
  unfold_body; simpl.
  split_calls;
    (do 2 eexists; split; [flatten_log; reflexivity|];
     split; [first [ reflexivity | symmetry; apply app_nil_r ]|]).
  all: close_step.
Qed.

End Step.

(** ** The loop *)

Lemma rev_two {A} (l t : list A) (a b : A) :
  rev l = a :: b :: t -> l = rev t ++ [b; a].
Proof.
  intros H. rewrite <- (rev_involutive l), H. simpl.
  rewrite <- app_assoc. reflexivity.
Qed.

Lemma abortTail_inv projectId secret evs :
  abortTail projectId secret evs ->
  exists pre rq e msg,
    evs = pre ++ [Call rq (Failed e); SetFailed msg]
    /\ quiet pre = true
    /\ concerns projectId secret rq
    /\ names (key secret) e msg.
Proof.
  unfold abortTail.
  destruct (rev evs) as [|[| msg | | |] [|[rq [|e]| | | |] t]] eqn:E;
    try contradiction.
  intros (Hq & Hc & Hn).
  exists (rev t), rq, e, msg. split; [apply rev_two; exact E | auto].
Qed.

Section Loop.

Context {S : Type} (client : Client S).
Variable projectId : JSString.

Local Notation parent := (parentName projectId).
Local Notation process := (processSecret client projectId parent).
Local Notation loop := (reconcile client projectId parent).

Lemma loop_cons secret es (st : State S) :
  loop (secret :: es) st =
    match process secret st with
    | (Normal _, st') => loop es st'
    | (Continue, st') => loop es st'
    | (Throw e, st') => (Throw e, st')
    | (Return, st') => (Return, st')
    end.
Proof. reflexivity. Qed.

Lemma Inv_step secret (st st' : State S) evs pushed :
  Inv projectId st ->
  log st' = log st ++ evs ->
  updatedSecrets st' = updatedSecrets st ++ pushed ->
  stepDone projectId secret evs pushed ->
  Inv projectId st'.
Proof.
  intros (Hq & Ha & Hc) Hl Hu (Hq' & _ & Ha' & Hc').
  unfold Inv. rewrite Hl, Hu, quiet_app, added_app, created_app, map_app.
  rewrite Hq, Hq', Ha, Ha'. repeat split.
  apply incl_app; [apply incl_appl | apply incl_appr]; assumption.
Qed.

Lemma NoDup_step (u pushed : list JSString) k ks :
  pushed = [] \/ pushed = [k] ->
  NoDup (u ++ k :: ks) -> NoDup ((u ++ pushed) ++ ks).
Proof.
  intros [-> | ->] H.
  - rewrite app_nil_r. eapply NoDup_remove_1; exact H.
  - rewrite <- app_assoc. exact H.
Qed.

Lemma loop_spec es : forall st : State S,
  Inv projectId st ->
  match loop es st with
  | (Normal _, st') =>
      Inv projectId st'
      /\ (NoDup (updatedSecrets st ++ map key es) ->
          NoDup (updatedSecrets st'))
  | (Return, st') => Aborted client projectId es st st'
  | (Throw _, _) => False
  | (Continue, _) => False
  end.
Proof.
  induction es as [|secret es IH]; intros st HI.
  - simpl. split; [exact HI|]. rewrite app_nil_r. auto.
  - rewrite loop_cons.
    destruct (process_spec client projectId secret st)
      as (evs & pushed & Hl & Hu & Hc).
    destruct (process secret st) as [c st1] eqn:Hp. simpl in Hl, Hu, Hc.
    assert (Hgo : c = Normal tt \/ c = Continue ->
                  stepDone projectId secret evs pushed ->
                  match loop es st1 with
                  | (Normal _, st') =>
                      Inv projectId st'
                      /\ (NoDup (updatedSecrets st ++ map key (secret :: es))
                          -> NoDup (updatedSecrets st'))
                  | (Return, st') =>
                      Aborted client projectId (secret :: es) st st'
                  | (Throw _, _) => False
                  | (Continue, _) => False
                  end).
    { intros Hcc Hd.
      assert (HI1 : Inv projectId st1) by (eapply Inv_step; eauto).
      specialize (IH st1 HI1).
      destruct (loop es st1) as [[[]|e| |] st'] eqn:Hr; try contradiction.
      - destruct IH as (HI' & Hnd). split; [exact HI'|].
        intros H. apply Hnd. rewrite Hu. simpl in H.
        destruct Hd as (_ & Hpushed & _).
        eapply NoDup_step; eauto.
      - destruct IH as (before & x & after & st2 & -> & Hb & Hx & Htail).
        exists (secret :: before), x, after, st2.
        split; [reflexivity|]. split; [|split; assumption].
        simpl app. rewrite loop_cons, Hp.
        destruct Hcc as [-> | ->]; exact Hb. }
    destruct c as [[]|e| |].
    + apply Hgo; [left; reflexivity | exact Hc].
    + contradiction.
    + apply Hgo; [right; reflexivity | exact Hc].
    + destruct Hc as (-> & Ht).
      apply abortTail_inv in Ht.
      destruct Ht as (pre & rq & e & msg & -> & Hq & Hcn & Hn).
      exists [], secret, es, st. repeat split; try assumption.
      exists (log st ++ pre), rq, e, msg.
      rewrite Hl, quiet_app, Hq, <- app_assoc.
      destruct HI as (-> & _). auto.
Qed.

End Loop.

(** ** The whole action *)

Lemma quiet_In (l : list Event) ev :
  quiet l = true -> In ev l -> quietEvent ev = true.
Proof. intros H; revert ev; apply forallb_forall; exact H. Qed.

Lemma NoDup_secretName projectId (ks : list JSString) :
  NoDup ks -> NoDup (map (secretName projectId) ks).
Proof.
  induction 1 as [|k ks Hk _ IH]; simpl; constructor; auto.
  rewrite in_map_iff. intros (k' & E & Hin).
  apply secretName_inj in E. congruence.
Qed.

Lemma In_secretName projectId (ks : list JSString) k :
  In (secretName projectId k) (map (secretName projectId) ks) <-> In k ks.
Proof.
  rewrite in_map_iff. split.
  - intros (k' & E & Hin). apply secretName_inj in E. congruence.
  - intros Hin. exists k. auto.
Qed.

Lemma no_segment_no_entry (secrets : JSString) :
  (forall seg, In seg (split 44 secrets) -> trim seg = []) ->
  parseSecrets secrets = [].
Proof.
  unfold parseSecrets. generalize (split 44 secrets) as segs.
  induction segs as [|seg segs IH]; intros H; [reflexivity|].
  simpl. rewrite (H seg (or_introl eq_refl)). simpl.
  apply IH. intros x Hx. apply H. right. exact Hx.
Qed.

Section Action.

Context {S : Type}.
Variable SecretManagerServiceClient : JSString -> Client S.

Local Notation client := SecretManagerServiceClient.

Lemma validate_spec es (st : State S) :
  validate es st =
    if existsb emptyKey es
    then (Return,
          {| service := service st;
             log := log st ++ [SetFailed Msg.invalid_format];
             updatedSecrets := updatedSecrets st |})
    else (Normal tt, st).
Proof.
  unfold validate. induction es as [|secret es IH]; [reflexivity|].
  simpl. destruct (emptyKey secret); simpl; [reflexivity | exact IH].
Qed.

Lemma run_spec projectId secrets (s : S) :
  run client projectId secrets (initial s) =
    if existsb emptyKey (parseSecrets secrets)
    then (Return,
          {| service := s;
             log := [SetFailed Msg.invalid_format];
             updatedSecrets := [] |})
    else
      match reconcile (SecretManagerServiceClient projectId) projectId
              (parentName projectId) (parseSecrets secrets) (initial s) with
      | (Normal _, st') =>
          (Normal tt,
           {| service := service st';
              log := log st'
                       ++ [SetOutput (str "updated_secrets")
                             (updatedSecrets st')];
              updatedSecrets := updatedSecrets st' |})
      | (Throw e, st') =>
          (Normal tt,
           {| service := service st';
              log := log st' ++ [SetFailed (Msg.outer e)];
              updatedSecrets := updatedSecrets st' |})
      | (Continue, st') => (Continue, st')
      | (Return, st') => (Return, st')
      end.
Proof.
  unfold run, bind. rewrite validate_spec.
  destruct (existsb emptyKey (parseSecrets secrets)); [reflexivity|].
  unfold new_updatedSecrets, try_catch, read_updatedSecrets, emit, initial.
  simpl.
  destruct (reconcile _ _ _ _ _) as [[[]|e| |] st']; reflexivity.
Qed.

Lemma Inv_initial projectId (s : S) : Inv projectId (initial s).
Proof. repeat split. apply incl_nil_l. Qed.

(** C4.  When some parsed entry, at any position, has an empty key, the
    run reports the validation error and returns: the client is never
    called and no output is set. *)
Theorem empty_key_fails_before_any_call projectId secrets (s : S) :
  (exists secret, In secret (parseSecrets secrets) /\ key secret = []) ->
  run client projectId secrets (initial s) =
    (Return,
     {| service := s;
        log := [SetFailed Msg.invalid_format];
        updatedSecrets := [] |}).
Proof.
  intros (secret & Hin & Hk). rewrite run_spec.
  assert (E : existsb emptyKey (parseSecrets secrets) = true).
  { apply existsb_exists. exists secret. split; [exact Hin|].
    unfold emptyKey. rewrite Hk. reflexivity. }
  rewrite E. reflexivity.
Qed.

(** With no segment left after splitting on ',' and trimming, the rest of
    [run] calls nothing and sets [updated_secrets] to the empty sequence. *)
Lemma no_entry_no_call projectId secrets (s : S) :
  (forall seg, In seg (split 44 secrets) -> trim seg = []) ->
  run client projectId secrets (initial s) =
    (Normal tt,
     {| service := s;
        log := [SetOutput (str "updated_secrets") []];
        updatedSecrets := [] |}).
Proof.
  intros H. rewrite run_spec, (no_segment_no_entry secrets H). reflexivity.
Qed.

(** C5 (amended).  When some call of the run is rejected with a code other
    than 5, the log ends with that call and one failure message.  The call
    belongs to an entry of the input; the message contains the key of
    that entry and, when the rejection is an [Error] instance, ends with its
    message.  The run stops in the iteration of that entry, after the
    entries before it completed, and [updated_secrets] is never set. *)
Theorem fatal_rejection_aborts projectId secrets (s : S) rq e :
  In (Call rq (Failed e)) (log (run_action client projectId secrets s)) ->
  code_is 5 e = false ->
  exists before secret after st1 pre msg,
    parseSecrets secrets = before ++ secret :: after
    /\ reconcile (SecretManagerServiceClient projectId) projectId
         (parentName projectId) before (initial s) = (Normal tt, st1)
    /\ processSecret (SecretManagerServiceClient projectId) projectId
         (parentName projectId) secret st1
       = (Return, run_action client projectId secrets s)
    /\ log (run_action client projectId secrets s)
       = pre ++ [Call rq (Failed e); SetFailed msg]
    /\ concerns projectId secret rq
    /\ names (key secret) e msg
    /\ (forall n v,
          ~ In (SetOutput n v) (log (run_action client projectId secrets s))).
Proof.
  unfold run_action. rewrite run_spec.
  destruct (existsb emptyKey (parseSecrets secrets)).
  { simpl. intros [H|[]]; discriminate. }
  pose proof (loop_spec (SecretManagerServiceClient projectId) projectId
                (parseSecrets secrets) (initial s) (Inv_initial projectId s))
    as Hloop.
  destruct (reconcile _ _ _ _ _) as [[[]|e0| |] st']; try contradiction.
  - destruct Hloop as ((Hq & _) & _). simpl.
    intros Hin Hcode. apply in_app_or in Hin as [Hin|[Hin|[]]];
      [|discriminate].
    apply (quiet_In _ _ Hq) in Hin. simpl in Hin. congruence.
  - destruct Hloop
      as (before & secret & after & st1 & Hes & Hb & Hp
          & pre & rq' & e' & msg & Hl & Hq & Hc & Hn).
    simpl. intros Hin Hcode.
    assert (E : rq = rq' /\ e = e').
    { rewrite Hl in Hin.
      apply in_app_or in Hin as [Hin|[Hin|[Hin|[]]]]; try discriminate.
      - apply (quiet_In _ _ Hq) in Hin. simpl in Hin. congruence.
      - inversion Hin; auto. }
    destruct E as [<- <-].
    exists before, secret, after, st1, pre, msg.
    repeat split; try assumption.
    intros n v Hout. rewrite Hl in Hout.
    apply in_app_or in Hout as [Hout|[Hout|[Hout|[]]]]; try discriminate.
    apply (quiet_In _ _ Hq) in Hout. discriminate.
Qed.

(** C8 (amended).  In a run that sets [updated_secrets], and whose entries
    have pairwise distinct keys: for every key at most one add-version call
    on its secret succeeded; the output holds exactly the keys for which
    an add-version call or a create call succeeded; and no key occurs in
    it twice. *)
Theorem updated_secrets_exact projectId secrets (s : S) updated :
  NoDup (map key (parseSecrets secrets)) ->
  In (SetOutput (str "updated_secrets") updated)
    (log (run_action client projectId secrets s)) ->
  (forall k,
     (count_occ (list_eq_dec N.eq_dec)
        (added (log (run_action client projectId secrets s)))
        (secretName projectId k) <= 1)%nat)
  /\ (forall k,
        In k updated <->
        In (secretName projectId k)
          (added (log (run_action client projectId secrets s)))
        \/ In k (created (log (run_action client projectId secrets s))))
  /\ NoDup updated.
Proof.
  unfold run_action. rewrite run_spec.
  destruct (existsb emptyKey (parseSecrets secrets)).
  { simpl. intros _ [H|[]]; discriminate. }
  pose proof (loop_spec (SecretManagerServiceClient projectId) projectId
                (parseSecrets secrets) (initial s) (Inv_initial projectId s))
    as Hloop.
  destruct (reconcile _ _ _ _ _) as [[[]|e0| |] st']; try contradiction.
  - destruct Hloop as ((Hq & Ha & Hc) & Hnd). simpl.
    intros Hkeys Hin.
    assert (E : updated = updatedSecrets st').
    { apply in_app_or in Hin as [Hin|[Hin|[]]].
      - apply (quiet_In _ _ Hq) in Hin. discriminate.
      - inversion Hin; reflexivity. }
    subst updated. specialize (Hnd Hkeys).
    rewrite added_app, created_app, Ha. simpl. rewrite !app_nil_r.
    split; [|split].
    + intros k. apply NoDup_count_occ. apply NoDup_secretName. exact Hnd.
    + intros k. rewrite In_secretName. split; [auto|].
      intros [H|H]; [exact H | apply Hc; exact H].
    + exact Hnd.
  - destruct Hloop
      as (_ & _ & _ & _ & _ & _ & _ & pre & rq & e & msg & Hl & Hq & _).
    simpl. intros _ Hin. rewrite Hl in Hin.
    apply in_app_or in Hin as [Hin|[Hin|[Hin|[]]]]; try discriminate.
    apply (quiet_In _ _ Hq) in Hin. discriminate.
Qed.

End Action.

(** ** The parser against the words of the specification *)

Lemma split_splitFirst sep (s : JSString) :
  split sep s =
    match splitFirst sep s with
    | (k, None) => [k]
    | (k, Some r) => k :: split sep r
    end.
Proof.
  induction s as [|c s IH]; simpl; [reflexivity|].
  destruct (c =? sep); [reflexivity|].
  rewrite IH. destruct (splitFirst sep s) as [k [r|]]; reflexivity.
Qed.

Lemma split_without_sep sep (s : JSString) :
  count_occ N.eq_dec s sep = 0%nat -> split sep s = [s].
Proof.
  induction s as [|c s IH]; simpl; [reflexivity|].
  destruct (N.eq_dec c sep) as [->|Hne]; [discriminate|].
  intros H. apply N.eqb_neq in Hne. rewrite Hne, (IH H). reflexivity.
Qed.

Lemma splitFirst_count sep (s k r : JSString) :
  splitFirst sep s = (k, Some r) ->
  count_occ N.eq_dec s sep = Datatypes.S (count_occ N.eq_dec r sep).
Proof.
  revert k; induction s as [|c s IH]; simpl; intros k; [discriminate|].
  destruct (N.eqb_spec c sep) as [->|Hne].
  - intros H; inversion H; subst.
    destruct (N.eq_dec sep sep); [reflexivity | contradiction].
  - destruct (splitFirst sep s) as [k' [r'|]]; [|discriminate].
    intros H; inversion H; subst.
    destruct (N.eq_dec c sep); [contradiction|].
    apply (IH k'). reflexivity.
Qed.

(** The key is the same in both readings, always. *)
Lemma parseItem_key (item : JSString) :
  key (parseItem item) = key (parseItem_spec item).
Proof.
  unfold parseItem, parseItem_spec. rewrite split_splitFirst.
  destruct (splitFirst 61 item) as [k [r|]]; [|reflexivity].
  rewrite split_splitFirst.
  destruct (splitFirst 61 r) as [k' [r'|]]; reflexivity.
Qed.

(** With at most one '=' in the segment the two readings agree. *)
Lemma parseItem_agrees (item : JSString) :
  (count_occ N.eq_dec item 61%N <= 1)%nat ->
  parseItem item = parseItem_spec item.
Proof.
  unfold parseItem, parseItem_spec. rewrite split_splitFirst.
  destruct (splitFirst 61 item) as [k [r|]] eqn:E; [|reflexivity].
  intros H. rewrite (splitFirst_count _ _ _ _ E) in H.
  rewrite split_without_sep by lia. reflexivity.
Qed.

Lemma parseSecrets_agrees (secrets : JSString) :
  (forall item, In item (map trim (split 44 secrets)) ->
                (count_occ N.eq_dec item 61%N <= 1)%nat) ->
  parseSecrets secrets = parseSecrets_spec secrets.
Proof.
  unfold parseSecrets, parseSecrets_spec. intros H.
  apply map_ext_in. intros item Hin.
  apply filter_In in Hin as [Hin _].
  apply parseItem_agrees, H, Hin.
Qed.

(** C3.  On a segment with two '=' the code keeps, as the value, only the
    text between the first and the second, where the specification takes
    everything after the first. *)
Theorem value_cut_at_second_equals :
  parseSecrets (str "K=a=b") = [{| key := str "K"; value := str "a" |}]
  /\ parseSecrets_spec (str "K=a=b")
     = [{| key := str "K"; value := str "a=b" |}].
Proof. split; reflexivity. Qed.

(** Test property 7 of the specification: order, trimming, empty segments. *)
Example parse_spacing_ex :
  parseSecrets (str "  KEY_ONE = val1  , ,, KEY_TWO=val2, ")
  = [{| key := str "KEY_ONE"; value := str "val1" |};
     {| key := str "KEY_TWO"; value := str "val2" |}].
Proof. reflexivity. Qed.

Example run_spacing_ex :
  let final :=
    run_action (fun _ => Mock.client) (str "test-project-123")
      (str "  KEY_ONE = val1  , ,, KEY_TWO=val2, ") Mock.defaults in
  created (log final) = [str "KEY_ONE"; str "KEY_TWO"]
  /\ addCalls (log final)
     = [(str "projects/test-project-123/secrets/KEY_ONE", str "val1");
        (str "projects/test-project-123/secrets/KEY_TWO", str "val2")]
  /\ In (SetOutput (str "updated_secrets") [str "KEY_ONE"; str "KEY_TWO"])
       (log final).
Proof. vm_compute. repeat split. repeat first [left; reflexivity | right]. Qed.

(** ** Concrete runs *)

Import Fixture.

Ltac distinct := let H := fresh in intros H; vm_compute in H; discriminate.

Ltac listed := repeat first [left; reflexivity | right].

Lemma existing_secret_compare_witness :
  processSecret Mock.client project (parentName project)
    (entry "EXISTING_SECRET_SAME" "same_value")
    (initial (existing "same_value"))
  = (Normal tt,
     {| service := Mock.defaults;
        log := [Call (GetSecret
                        (secretName project (str "EXISTING_SECRET_SAME"))) Ok;
                Call (AccessSecretVersion
                        (latestVersion project (str "EXISTING_SECRET_SAME")))
                  Ok;
                Info (Msg.up_to_date (str "EXISTING_SECRET_SAME"))];
        updatedSecrets := [] |})
  /\ processSecret Mock.client project (parentName project)
       (entry "EXISTING_SECRET" "new_secret_value")
       (initial (existing "old_secret_value"))
     = (Normal tt,
        {| service := Mock.defaults;
           log := [Call (GetSecret
                           (secretName project (str "EXISTING_SECRET"))) Ok;
                   Call (AccessSecretVersion
                           (latestVersion project (str "EXISTING_SECRET")))
                     Ok;
                   Call (AddSecretVersion
                           (secretName project (str "EXISTING_SECRET"))
                           (Buffer_from (str "new_secret_value"))) Ok;
                   Info (Msg.updated (str "EXISTING_SECRET"))];
           updatedSecrets := [str "EXISTING_SECRET"] |}).
Proof.
  split.
  - exact (proj1
             (existing_secret_compare Mock.client project
                (entry "EXISTING_SECRET_SAME" "same_value")
                (initial (existing "same_value")) _ _ _ _
                eq_refl eq_refl eq_refl)
             eq_refl).
  - refine (proj2
              (existing_secret_compare Mock.client project
                 (entry "EXISTING_SECRET" "new_secret_value")
                 (initial (existing "old_secret_value")) _ _ _ _
                 eq_refl eq_refl eq_refl)
              _ (Fulfilled tt) _ eq_refl).
    distinct.
Defined.

(** C1, as stated, fails: the value differs and the first add-version call
    is rejected with code 5, so that two add-version calls are made; or it
    is rejected with another error, and the key is not recorded. *)
Lemma existing_secret_compare_counterexample :
  let secret := entry "EXISTING_SECRET" "new_secret_value" in
  let name := secretName project (str "EXISTING_SECRET") in
  let run1 :=
    processSecret Mock.client project (parentName project) secret
      (initial (existing_add_rejected "old_secret_value"
                  (Mock.plain 5 "Secret not found"))) in
  let run2 :=
    processSecret Mock.client project (parentName project) secret
      (initial (existing_add_rejected "old_secret_value"
                  (Mock.new_Error "quota exceeded"))) in
  toString_utf8 (Buffer_from (str "old_secret_value")) <> value secret
  /\ addCalls (log (snd run1))
     = [(name, Buffer_from (str "new_secret_value"));
        (name, Buffer_from (str "new_secret_value"))]
  /\ addCalls (log (snd run2)) = [(name, Buffer_from (str "new_secret_value"))]
  /\ updatedSecrets (snd run2) = [].
Proof. split; [distinct | vm_compute; auto]. Qed.

Lemma create_path_calls_witness :
  processSecret Mock.client project (parentName project)
    (entry "NEW_SECRET" "new_value") (initial Mock.defaults)
  = (Continue,
     {| service := Mock.defaults;
        log := [Call (GetSecret (secretName project (str "NEW_SECRET")))
                  (Failed (Mock.plain 5 "Secret not found"));
                Call (CreateSecret (parentName project) (str "NEW_SECRET")
                        Automatic) Ok;
                Call (AddSecretVersion
                        (secretName project (str "NEW_SECRET"))
                        (Buffer_from (str "new_value"))) Ok];
        updatedSecrets := [str "NEW_SECRET"] |}).
Proof.
  exact (create_path_calls Mock.client project
           (entry "NEW_SECRET" "new_value") (initial Mock.defaults)
           _ _ (Fulfilled tt) _ eq_refl eq_refl eq_refl
           (Fulfilled tt) _ eq_refl).
Defined.

(** C2, as stated, fails: the existence check is rejected with code 5 and
    the create call is rejected; no add-version call follows and the key is
    not recorded. *)
Lemma create_path_calls_counterexample :
  let final :=
    snd (processSecret Mock.client project (parentName project)
           (entry "FAIL_CREATE" "fail_create_value")
           (initial create_fails)) in
  log final
  = [Call (GetSecret (secretName project (str "FAIL_CREATE")))
       (Failed (Mock.plain 5 "Secret not found"));
     Call (CreateSecret (parentName project) (str "FAIL_CREATE") Automatic)
       (Failed (Mock.new_Error "API Error during creation"));
     SetFailed
       (str "Error creating secret FAIL_CREATE or adding initial version: API Error during creation")]
  /\ addCalls (log final) = []
  /\ updatedSecrets final = [].
Proof. vm_compute. auto. Qed.

Lemma empty_key_fails_before_any_call_witness :
  run (fun _ => Mock.client) project (str "validKey=val1, =emptyKeyVal")
    (initial Mock.defaults)
  = (Return,
     {| service := Mock.defaults;
        log := [SetFailed
                  (str "Invalid secrets format: Found an entry with an empty key.")];
        updatedSecrets := [] |}).
Proof.
  apply (empty_key_fails_before_any_call (fun _ => Mock.client) project
           (str "validKey=val1, =emptyKeyVal") Mock.defaults).
  exists {| key := []; value := str "emptyKeyVal" |}.
  split; [vm_compute; auto | reflexivity].
Defined.

Lemma fatal_rejection_aborts_witness :
  let final :=
    run_action (fun _ => Mock.client) project
      (str "FAIL_CREATE=fail_create_value") create_fails in
  let rq := CreateSecret (parentName project) (str "FAIL_CREATE") Automatic in
  let e := Mock.new_Error "API Error during creation" in
  exists before secret after st1 pre msg,
    parseSecrets (str "FAIL_CREATE=fail_create_value")
    = before ++ secret :: after
    /\ reconcile Mock.client project (parentName project) before
         (initial create_fails) = (Normal tt, st1)
    /\ processSecret Mock.client project (parentName project) secret st1
       = (Return, final)
    /\ log final = pre ++ [Call rq (Failed e); SetFailed msg]
    /\ concerns project secret rq
    /\ names (key secret) e msg
    /\ (forall n v, ~ In (SetOutput n v) (log final)).
Proof.
  apply (fatal_rejection_aborts (fun _ => Mock.client) project
           (str "FAIL_CREATE=fail_create_value") create_fails
           (CreateSecret (parentName project) (str "FAIL_CREATE") Automatic)
           (Mock.new_Error "API Error during creation")).
  - vm_compute. auto.
  - reflexivity.
Defined.

(** C5, as stated, fails: the existence check is rejected with a plain
    object of code 7 and message "boom"; the failure message names the key
    and not the cause. *)
Lemma fatal_rejection_aborts_counterexample :
  let final :=
    run_action (fun _ => Mock.client) project (str "K=v") check_fails_plain in
  log final
  = [Call (GetSecret (secretName project (str "K")))
       (Failed (Mock.plain 7 "boom"));
     SetFailed (str "An unknown error occurred while checking secret K")]
  /\ includes (str "boom")
       (str "An unknown error occurred while checking secret K") = false.
Proof. vm_compute. auto. Qed.

Lemma no_latest_version_adds_witness :
  processSecret Mock.client project (parentName project)
    (entry "EXISTING_SECRET_NO_VERSION" "value_for_no_version_secret")
    (initial no_version)
  = (Normal tt,
     {| service := Mock.defaults;
        log := [Call (GetSecret
                        (secretName project
                           (str "EXISTING_SECRET_NO_VERSION"))) Ok;
                Call (AccessSecretVersion
                        (latestVersion project
                           (str "EXISTING_SECRET_NO_VERSION")))
                  (Failed (Mock.plain 5 "Version not found"));
                Warning (Msg.no_latest (str "EXISTING_SECRET_NO_VERSION"));
                Call (AddSecretVersion
                        (secretName project
                           (str "EXISTING_SECRET_NO_VERSION"))
                        (Buffer_from (str "value_for_no_version_secret")))
                  Ok];
        updatedSecrets := [str "EXISTING_SECRET_NO_VERSION"] |}).
Proof.
  exact (no_latest_version_adds Mock.client project
           (entry "EXISTING_SECRET_NO_VERSION" "value_for_no_version_secret")
           (initial no_version) _ _ _ (Fulfilled tt) _
           eq_refl eq_refl eq_refl eq_refl).
Defined.

Lemma absent_payload_updates_witness :
  processSecret Mock.client project (parentName project)
    (entry "K" "v") (initial no_payload)
  = (Normal tt,
     {| service := Mock.defaults;
        log := [Call (GetSecret (secretName project (str "K"))) Ok;
                Call (AccessSecretVersion (latestVersion project (str "K")))
                  Ok;
                Warning (Msg.no_data (str "K"));
                Call (AddSecretVersion (secretName project (str "K"))
                        (Buffer_from (str "v"))) Ok];
        updatedSecrets := [str "K"] |}).
Proof.
  exact (absent_payload_updates Mock.client project (entry "K" "v")
           (initial no_payload) _ _ _ (Fulfilled tt) _
           eq_refl eq_refl (or_introl eq_refl) eq_refl).
Defined.

(** C7, as stated, fails, in two ways.  The latest version holds the byte
    0xFF, which is the encoding of no string: it decodes to U+FFFD and is
    compared; with the desired value "v" a version is added and no warning
    is emitted; with the desired value U+FFFD nothing is added and the key
    is not recorded.  And the latest version has no payload but the
    add-version call is rejected: the warning is emitted, the call is made,
    and the key is not recorded. *)
Lemma absent_payload_updates_counterexample :
  let run1 :=
    snd (processSecret Mock.client project (parentName project)
           (entry "K" "v") (initial invalid_utf8)) in
  let run2 :=
    snd (processSecret Mock.client project (parentName project)
           {| key := str "K"; value := [65533] |} (initial invalid_utf8)) in
  let run3 :=
    snd (processSecret Mock.client project (parentName project)
           (entry "K" "v")
           (initial (no_payload_add_rejected
                       (Mock.new_Error "quota exceeded")))) in
  (forall s, Buffer_from s <> [255])
  /\ log run1
     = [Call (GetSecret (secretName project (str "K"))) Ok;
        Call (AccessSecretVersion (latestVersion project (str "K"))) Ok;
        Call (AddSecretVersion (secretName project (str "K"))
                (Buffer_from (str "v"))) Ok;
        Info (Msg.updated (str "K"))]
  /\ existsb isWarning (log run1) = false
  /\ addCalls (log run2) = []
  /\ existsb isWarning (log run2) = false
  /\ updatedSecrets run2 = []
  /\ log run3
     = [Call (GetSecret (secretName project (str "K"))) Ok;
        Call (AccessSecretVersion (latestVersion project (str "K"))) Ok;
        Warning (Msg.no_data (str "K"));
        Call (AddSecretVersion (secretName project (str "K"))
                (Buffer_from (str "v")))
          (Failed (Mock.new_Error "quota exceeded"));
        SetFailed
          (str "Error accessing/updating secret K: quota exceeded")]
  /\ updatedSecrets run3 = [].
Proof. split; [exact not_utf8 | vm_compute; auto 8]. Qed.

Lemma updated_secrets_exact_witness :
  let secrets :=
    str "NEW_MULTI=new_multi_val, UPDATE_MULTI=update_new_val, NOCHANGE_MULTI=nochange_val" in
  let final := run_action (fun _ => Mock.client) project secrets multi in
  let updated := [str "NEW_MULTI"; str "UPDATE_MULTI"] in
  (forall k,
     (count_occ (list_eq_dec N.eq_dec) (added (log final))
        (secretName project k) <= 1)%nat)
  /\ (forall k,
        In k updated <->
        In (secretName project k) (added (log final))
        \/ In k (created (log final)))
  /\ NoDup updated.
Proof.
  apply (updated_secrets_exact (fun _ => Mock.client) project
           (str "NEW_MULTI=new_multi_val, UPDATE_MULTI=update_new_val, NOCHANGE_MULTI=nochange_val")
           multi [str "NEW_MULTI"; str "UPDATE_MULTI"]).
  - vm_compute.
    repeat (constructor; [simpl; intros H; intuition discriminate|]).
    constructor.
  - vm_compute. listed.
Defined.

(** C8, as stated, fails: the key A is listed twice, the secret being
    absent when the run starts.  The run succeeds, two versions are added
    to the one secret and the output names A twice. *)
Lemma updated_secrets_exact_counterexample :
  let final := run_action (fun _ => Memory.client) (str "p") (str "A=1,A=2") [] in
  service final = [(secretName (str "p") (str "A"), [str "1"; str "2"])]
  /\ added (log final)
     = [secretName (str "p") (str "A"); secretName (str "p") (str "A")]
  /\ In (SetOutput (str "updated_secrets") [str "A"; str "A"]) (log final)
  /\ ~ NoDup [str "A"; str "A"].
Proof.
  split; [reflexivity|]. split; [reflexivity|]. split.
  - vm_compute. listed.
  - intros H. inversion H as [|x l Hx _]; subst. apply Hx. left. reflexivity.
Qed.

Lemma add_rejected_not_found_retries_witness :
  processSecret Mock.client project (parentName project)
    (entry "EXISTING_SECRET" "new_secret_value")
    (initial (existing_add_rejected "old_secret_value"
                (Mock.plain 5 "Secret not found")))
  = (Normal tt,
     {| service := Mock.defaults;
        log := [Call (GetSecret (secretName project (str "EXISTING_SECRET")))
                  Ok;
                Call (AccessSecretVersion
                        (latestVersion project (str "EXISTING_SECRET"))) Ok;
                Call (AddSecretVersion
                        (secretName project (str "EXISTING_SECRET"))
                        (Buffer_from (str "new_secret_value")))
                  (Failed (Mock.plain 5 "Secret not found"));
                Warning (Msg.no_latest (str "EXISTING_SECRET"));
                Call (AddSecretVersion
                        (secretName project (str "EXISTING_SECRET"))
                        (Buffer_from (str "new_secret_value"))) Ok];
        updatedSecrets := [str "EXISTING_SECRET"] |}).
Proof.
  refine (add_rejected_not_found_retries Mock.client project
            (entry "EXISTING_SECRET" "new_secret_value")
            (initial (existing_add_rejected "old_secret_value"
                        (Mock.plain 5 "Secret not found")))
            _ _ _ _ _ (Fulfilled tt) _
            eq_refl eq_refl _ eq_refl eq_refl eq_refl).
  intros current H. vm_compute in H. injection H as <-. distinct.
Defined.

(** * Further properties *)

(** ** Trimming and splitting *)

Lemma trimStart_app (a b : JSString) :
  trimStart (a ++ b) =
    match trimStart a with
    | [] => trimStart b
    | _ :: _ => trimStart a ++ b
    end.
Proof.
  induction a as [|c a IH]; [reflexivity|].
  cbn [trimStart app]. destruct (isWhiteSpace c); [exact IH | reflexivity].
Qed.

Lemma trimStart_head (s : JSString) c r :
  trimStart s = c :: r -> isWhiteSpace c = false.
Proof.
  induction s as [|x s IH]; cbn [trimStart]; [discriminate|].
  destruct (isWhiteSpace x) eqn:E; [exact IH|].
  intros H; injection H as <- _. exact E.
Qed.

Lemma trimStart_fixed c (r : JSString) :
  isWhiteSpace c = false -> trimStart (c :: r) = c :: r.
Proof. intros H. cbn [trimStart]. rewrite H. reflexivity. Qed.

Lemma trimStart_In (s : JSString) x : In x (trimStart s) -> In x s.
Proof.
  induction s as [|c s IH]; cbn [trimStart]; [auto|].
  destruct (isWhiteSpace c); [right; auto | auto].
Qed.

(** [trimEnd] read from the front. *)
Lemma trimEnd_cons c (r : JSString) :
  trimEnd (c :: r) =
    match trimEnd r with
    | [] => if isWhiteSpace c then [] else [c]
    | _ :: _ => c :: trimEnd r
    end.
Proof.
  unfold trimEnd. cbn [rev]. rewrite trimStart_app.
  destruct (trimStart (rev r)) as [|x t] eqn:E.
  - cbn [rev trimStart]. destruct (isWhiteSpace c); reflexivity.
  - rewrite rev_app_distr. cbn [rev app].
    destruct (rev t ++ [x]) as [|y u] eqn:E'; [|reflexivity].
    destruct (rev t); discriminate.
Qed.

Lemma trimEnd_nil : trimEnd [] = [].
Proof. reflexivity. Qed.

Lemma trimEnd_In (s : JSString) x : In x (trimEnd s) -> In x s.
Proof.
  induction s as [|c s IH]; [auto|].
  rewrite trimEnd_cons. destruct (trimEnd s) as [|y t].
  - destruct (isWhiteSpace c); [intros [] | intros [<-|[]]; left; reflexivity].
  - intros [<-|H]; [left; reflexivity | right; auto].
Qed.

Lemma trim_In (s : JSString) x : In x (trim s) -> In x s.
Proof. intros H. apply trimStart_In, trimEnd_In, H. Qed.

Lemma trimEnd_keeps_head c (r : JSString) :
  isWhiteSpace c = false -> exists t, trimEnd (c :: r) = c :: t.
Proof.
  intros H. rewrite trimEnd_cons, H.
  destruct (trimEnd r) as [|y t]; eauto.
Qed.

Lemma trimEnd_last (s r : JSString) c :
  trimEnd s = r ++ [c] -> isWhiteSpace c = false.
Proof.
  unfold trimEnd. intros H.
  apply (f_equal (@rev N)) in H.
  rewrite rev_involutive, rev_app_distr in H. cbn [rev app] in H.
  eapply trimStart_head; exact H.
Qed.

Lemma trim_Trimmed (s : JSString) : Trimmed (trim s).
Proof.
  unfold trim. split.
  - intros c r H.
    destruct (trimStart s) as [|x t] eqn:E; [discriminate|].
    pose proof (trimStart_head _ _ _ E) as Hx.
    destruct (trimEnd_keeps_head x t Hx) as [u Hu].
    rewrite Hu in H. injection H as <- _. exact Hx.
  - intros r c H. eapply trimEnd_last; exact H.
Qed.

Lemma Trimmed_trim (s : JSString) : Trimmed s -> trim s = s.
Proof.
  intros [Hh Hl]. unfold trim.
  assert (E : trimStart s = s).
  { destruct s as [|c r]; [reflexivity|].
    apply trimStart_fixed. eapply Hh; reflexivity. }
  rewrite E. clear E Hh.
  induction s as [|c r IH]; [reflexivity|].
  rewrite trimEnd_cons. rewrite IH.
  - destruct r as [|y t]; [|reflexivity].
    rewrite (Hl [] c eq_refl). reflexivity.
  - intros r' c' ->. apply (Hl (c :: r') c'). reflexivity.
Qed.

Lemma split_nonempty sep (s : JSString) : split sep s <> [].
Proof.
  destruct s as [|c s]; cbn [split]; [discriminate|].
  destruct (c =? sep); [discriminate|].
  destruct (split sep s); discriminate.
Qed.

Lemma split_app sep (a b : JSString) :
  split sep (a ++ sep :: b) = split sep a ++ split sep b.
Proof.
  induction a as [|c a IH]; cbn [split app].
  - rewrite N.eqb_refl. reflexivity.
  - destruct (c =? sep); [rewrite IH; reflexivity|].
    rewrite IH. pose proof (split_nonempty sep a) as Hne.
    destruct (split sep a) as [|h t]; [contradiction | reflexivity].
Qed.

Lemma split_pieces sep (s x : JSString) :
  In x (split sep s) -> ~ In sep x /\ (forall c, In c x -> In c s).
Proof.
  revert x; induction s as [|c s IH]; cbn [split]; intros x.
  - intros [<-|[]]. split; auto.
  - destruct (N.eqb_spec c sep) as [->|Hne].
    + intros [<-|H]; [split; [auto | intros ? []]|].
      destruct (IH x H) as [H1 H2]. split; [exact H1|].
      intros y Hy. right. auto.
    + pose proof (split_nonempty sep s) as Hn.
      destruct (split sep s) as [|h t]; [contradiction|].
      intros [<-|H].
      * destruct (IH h (or_introl eq_refl)) as [H1 H2]. split.
        -- intros [E|E]; [congruence | auto].
        -- intros y [<-|Hy]; [left; reflexivity | right; auto].
      * destruct (IH x (or_intror H)) as [H1 H2]. split; [exact H1|].
        intros y Hy. right. auto.
Qed.

(** The pieces the parser keeps of one item. *)
Lemma parseItem_pieces (item : JSString) :
  exists k v,
    key (parseItem item) = trim k /\ value (parseItem item) = trim v
    /\ ~ In 61 k /\ ~ In 61 v
    /\ (forall c, In c k -> In c item) /\ (forall c, In c v -> In c item).
Proof.
  unfold parseItem.
  pose proof (split_nonempty 61 item) as Hn.
  pose proof (split_pieces 61 item) as Hp.
  destruct (split 61 item) as [|k [|v rest]]; [contradiction| |].
  - destruct (Hp k (or_introl eq_refl)) as [H1 H2].
    exists k, []. cbn [key value]. repeat split; auto. intros ? [].
  - destruct (Hp k (or_introl eq_refl)) as [H1 H2].
    destruct (Hp v (or_intror (or_introl eq_refl))) as [H3 H4].
    exists k, v. cbn [key value]. repeat split; auto.
Qed.

Lemma parseSecrets_In (secrets : JSString) secret :
  In secret (parseSecrets secrets) ->
  exists seg,
    In seg (split 44 secrets) /\ trim seg <> []
    /\ secret = parseItem (trim seg).
Proof.
  unfold parseSecrets. rewrite in_map_iff.
  intros (item & <- & Hin). apply filter_In in Hin as [Hin Hlen].
  apply in_map_iff in Hin as (seg & <- & Hseg).
  exists seg. repeat split; auto.
  intros E. rewrite E in Hlen. discriminate.
Qed.

(** X1.  Neither the key nor the value of a parsed entry contains a
    comma or an equals sign. *)
Theorem parsed_without_separators (secrets : JSString) secret :
  In secret (parseSecrets secrets) ->
  ~ In 44 (key secret) /\ ~ In 61 (key secret)
  /\ ~ In 44 (value secret) /\ ~ In 61 (value secret).
Proof.
  intros parsed.
  destruct (parseSecrets_In _ _ parsed) as (seg & Hseg & _ & ->).
  destruct (split_pieces 44 secrets seg Hseg) as [Hc _].
  destruct (parseItem_pieces (trim seg))
    as (k & v & -> & -> & Hk & Hv & Hki & Hvi).
  repeat split; intros H; apply trim_In in H; auto;
    apply Hc; apply trim_In; auto.
Qed.

(** X2.  Key and value of a parsed entry have no white space at either
    end, so that trimming them again changes nothing. *)
Theorem parsed_trimmed (secrets : JSString) secret :
  In secret (parseSecrets secrets) ->
  Trimmed (key secret) /\ Trimmed (value secret)
  /\ trim (key secret) = key secret /\ trim (value secret) = value secret.
Proof.
  intros parsed.
  destruct (parseSecrets_In _ _ parsed) as (seg & _ & _ & ->).
  destruct (parseItem_pieces (trim seg)) as (k & v & -> & -> & _).
  repeat split; try apply trim_Trimmed;
    apply Trimmed_trim, trim_Trimmed.
Qed.

(** X3.  Parsing two lists joined by a comma gives the entries of the
    first followed by the entries of the second. *)
Theorem parseSecrets_app (a b : JSString) :
  parseSecrets (a ++ 44 :: b) = parseSecrets a ++ parseSecrets b.
Proof.
  unfold parseSecrets.
  rewrite split_app, map_app, filter_app, map_app. reflexivity.
Qed.

(** The key of an item that is not empty and was trimmed is empty exactly
    when the item starts with '='. *)
Lemma emptyKey_parseItem (item : JSString) c r :
  item = c :: r -> isWhiteSpace c = false ->
  emptyKey (parseItem item) = (c =? 61).
Proof.
  intros -> Hc. unfold parseItem, emptyKey.
  rewrite split_splitFirst. cbn [splitFirst].
  destruct (c =? 61) eqn:E.
  - destruct (split 61 r) as [|v rest]; reflexivity.
  - destruct (splitFirst 61 r) as [k [v|]].
    + assert (Hk : exists t, trim (c :: k) = c :: t).
      { unfold trim. rewrite trimStart_fixed by exact Hc.
        apply trimEnd_keeps_head, Hc. }
      destruct Hk as [t Ht].
      destruct (split 61 v) as [|v' rest]; cbn [key]; rewrite Ht; reflexivity.
    + assert (Hk : exists t, trim (c :: k) = c :: t).
      { unfold trim. rewrite trimStart_fixed by exact Hc.
        apply trimEnd_keeps_head, Hc. }
      destruct Hk as [t Ht]. cbn [key]. rewrite Ht. reflexivity.
Qed.

Lemma emptyKey_segments (secrets : JSString) :
  existsb emptyKey (parseSecrets secrets) = true <->
  exists seg r, In seg (split 44 secrets) /\ trim seg = 61 :: r.
Proof.
  rewrite existsb_exists. split.
  - intros (secret & Hin & He).
    destruct (parseSecrets_In _ _ Hin) as (seg & Hseg & Hne & ->).
    destruct (trim seg) as [|c r] eqn:E; [contradiction|].
    assert (Hc : isWhiteSpace c = false).
    { destruct (trim_Trimmed seg) as [Hh _]. eapply Hh; exact E. }
    rewrite (emptyKey_parseItem (c :: r) c r eq_refl Hc) in He.
    apply N.eqb_eq in He. subst c. exists seg, r. auto.
  - intros (seg & r & Hseg & E).
    exists (parseItem (trim seg)). split.
    + unfold parseSecrets. apply in_map, filter_In. split.
      * apply in_map, Hseg.
      * rewrite E. reflexivity.
    + assert (Hc : isWhiteSpace 61 = false) by reflexivity.
      rewrite (emptyKey_parseItem (trim seg) 61 r E Hc). reflexivity.
Qed.

(** ** The traces of [run] *)

Create HintDb traces.
#[local] Hint Constructors Recovery Iteration : traces.

Section StepTrace.

Context {S : Type} (client : Client S).
Variable projectId : JSString.
Variable secret : SecretEntry.

Local Notation process :=
  (processSecret client projectId (parentName projectId) secret).

Ltac split_calls :=
  repeat match goal with
    | |- context [getSecret ?c ?n ?s] =>
        destruct (getSecret c n s) as [[[]|?] ?]; simpl
    | |- context [createSecret ?c ?p ?k ?r ?s] =>
        destruct (createSecret c p k r s) as [[[]|?] ?]; simpl
    | |- context [accessSecretVersion ?c ?n ?s] =>
        destruct (accessSecretVersion c n s) as [[?|?] ?]; simpl
    | |- context [addSecretVersion ?c ?n ?b ?s] =>
        destruct (addSecretVersion c n b s) as [[[]|?] ?]; simpl
    | |- context [code_is 5 ?e] => destruct (code_is 5 e) eqn:?; simpl
    | |- context [currentSecretData ?v] =>
        destruct (currentSecretData v); simpl
    | |- context [JS.eqb ?a ?b] => destruct (JS.eqb a b); simpl
    end.

(** Every iteration follows one of the traces of [Iteration]. *)
Lemma process_trace (st : State S) :
  exists evs pushed aborted,
    log (snd (process st)) = log st ++ evs
    /\ updatedSecrets (snd (process st)) = updatedSecrets st ++ pushed
    /\ match fst (process st) with
       | Normal _ | Continue => aborted = false
       | Return => aborted = true
       | Throw _ => False
       end
    /\ Iteration projectId secret evs pushed aborted.
Proof.
  unfold_body; simpl.
  split_calls;
    (do 3 eexists; split; [flatten_log; reflexivity|];
     split; [first [ reflexivity | symmetry; apply app_nil_r ]|];
     split; [reflexivity|]).
  all: eauto with traces.
Qed.

End StepTrace.

Section LoopTrace.

Context {S : Type} (client : Client S).
Variable projectId : JSString.

Lemma loop_trace es : forall st : State S,
  exists evs pushed aborted,
    Iterations projectId es evs pushed aborted
    /\ log (snd (reconcile client projectId (parentName projectId) es st))
       = log st ++ evs
    /\ updatedSecrets
         (snd (reconcile client projectId (parentName projectId) es st))
       = updatedSecrets st ++ pushed
    /\ fst (reconcile client projectId (parentName projectId) es st)
       = if aborted then Return else Normal tt.
Proof.
  induction es as [|secret es IH]; intros st.
  - exists [], [], false. simpl. rewrite !app_nil_r.
    repeat split. constructor.
  - rewrite loop_cons.
    destruct (process_trace client projectId secret st)
      as (evs & pushed & aborted & Hl & Hu & Hc & Hi).
    destruct (processSecret client projectId (parentName projectId) secret st)
      as [c st1].
    simpl in Hl, Hu, Hc.
    assert (Hgo : aborted = false ->
                  exists evs' pushed' aborted',
                    Iterations projectId (secret :: es) evs' pushed' aborted'
                    /\ log (snd (reconcile client projectId
                                   (parentName projectId) es st1))
                       = log st ++ evs'
                    /\ updatedSecrets
                         (snd (reconcile client projectId
                                 (parentName projectId) es st1))
                       = updatedSecrets st ++ pushed'
                    /\ fst (reconcile client projectId
                              (parentName projectId) es st1)
                       = if aborted' then Return else Normal tt).
    { intros ->.
      destruct (IH st1) as (evs' & pushed' & aborted' & Hi' & Hl' & Hu' & Hc').
      exists (evs ++ evs'), (pushed ++ pushed'), aborted'.
      rewrite Hl', Hu', Hl, Hu, <- !app_assoc.
      repeat split; [|exact Hc']. econstructor; eassumption. }
    destruct c as [[]|e| |].
    + apply Hgo, Hc.
    + contradiction.
    + apply Hgo, Hc.
    + subst aborted. exists evs, pushed, true. simpl.
      repeat split; auto. constructor. exact Hi.
Qed.

End LoopTrace.

Section RunTrace.

Context {S : Type}.
Variable client : JSString -> Client S.
Variables projectId secrets : JSString.
Variable s : S.

(** A run is the validation failure alone, or the iterations over the
    parsed entries followed, unless one of them returned, by the output. *)
Lemma run_trace :
  (existsb emptyKey (parseSecrets secrets) = true
   /\ log (run_action client projectId secrets s)
      = [SetFailed Msg.invalid_format])
  \/ (existsb emptyKey (parseSecrets secrets) = false
      /\ exists evs pushed aborted,
           Iterations projectId (parseSecrets secrets) evs pushed aborted
           /\ log (run_action client projectId secrets s)
              = evs ++ (if aborted then []
                        else [SetOutput (str "updated_secrets") pushed])).
Proof.
  unfold run_action. rewrite run_spec.
  destruct (existsb emptyKey (parseSecrets secrets)); [left; auto|].
  right. split; [reflexivity|].
  destruct (loop_trace (client projectId) projectId (parseSecrets secrets)
              (initial s))
    as (evs & pushed & aborted & Hi & Hl & Hu & Hc).
  exists evs, pushed, aborted. split; [exact Hi|].
  destruct (reconcile _ _ _ _ _) as [c st']. simpl in Hl, Hu, Hc.
  subst c. destruct aborted; simpl; rewrite Hl, ?Hu; simpl.
  - rewrite app_nil_r. reflexivity.
  - reflexivity.
Qed.

End RunTrace.

(** ** What the traces show *)

Ltac inv_iteration H :=
  destruct H;
  try match goal with
    | R : Recovery _ _ _ _ _ |- _ => destruct R
    end.

Section IterationFacts.

Variable projectId : JSString.
Variable secret : SecretEntry.
Variables (evs : list Event) (pushed : list JSString) (aborted : bool).
Hypothesis trace : Iteration projectId secret evs pushed aborted.

Lemma iteration_terminal :
  if aborted
  then exists pre m,
         evs = pre ++ [SetFailed m] /\ existsb isTerminal pre = false
  else existsb isTerminal evs = false.
Proof.
  inv_iteration trace; try reflexivity;
    match goal with
    | |- exists pre m, ?l = _ /\ _ =>
        exists (removelast l); eexists; cbn [removelast]; split; reflexivity
    end.
Qed.

Lemma iteration_concerns rq o :
  In (Call rq o) evs -> concerns projectId secret rq.
Proof.
  unfold concerns.
  intros Hin.
  inv_iteration trace; cbn [In] in Hin;
    repeat match type of Hin with
      | _ \/ _ => destruct Hin as [Hin|Hin]
      | False => contradiction
      | _ = _ => first [discriminate Hin | injection Hin as <- _; tauto]
      end.
Qed.

Lemma iteration_getCalls :
  getCalls evs = [secretName projectId (key secret)].
Proof. inv_iteration trace; reflexivity. Qed.

Lemma iteration_calls : (List.length (filter isCall evs) <= 4)%nat.
Proof. inv_iteration trace; cbn; lia. Qed.

Lemma iteration_pushed :
  (pushed = [] \/ pushed = [key secret]) /\ (aborted = true -> pushed = []).
Proof. inv_iteration trace; split; auto; discriminate. Qed.

Lemma iteration_starts : exists rq o t, evs = Call rq o :: t.
Proof. inv_iteration trace; eauto. Qed.

Lemma iteration_writes rq o :
  In (Call rq o) evs -> aborted = false ->
  match rq with
  | CreateSecret _ _ _ => pushed = [key secret]
  | AddSecretVersion _ _ => pushed = [key secret]
  | _ => True
  end.
Proof.
  intros Hin Ha.
  inv_iteration trace; cbn [In] in Hin; try discriminate Ha;
    repeat match type of Hin with
      | _ \/ _ => destruct Hin as [Hin|Hin]
      | False => contradiction
      | _ = _ => first [discriminate Hin | injection Hin as <- _; exact I
                       | injection Hin as <- _; reflexivity]
      end.
Qed.

Lemma iteration_create l1 p k r o l2 :
  evs = l1 ++ Call (CreateSecret p k r) o :: l2 ->
  exists e,
    l1 = [Call (GetSecret (secretName projectId k)) (Failed e)]
    /\ code_is 5 e = true
    /\ p = parentName projectId /\ r = Automatic.
Proof.
  intros H.
  inv_iteration trace;
    repeat (destruct l1 as [|? l1]; cbn [app] in H;
            [ first [discriminate H | idtac]
            | first [discriminate H | injection H as ? H; subst] ]);
    try (injection H as ? ? ? ? ?; subst; eauto).
Qed.

End IterationFacts.

Lemma getCalls_app (l r : list Event) :
  getCalls (l ++ r) = getCalls l ++ getCalls r.
Proof.
  induction l as [|[[| | |] o| | | |] l IH]; simpl; congruence.
Qed.

Lemma Subsequence_nil {A} (l : list A) : Subsequence [] l.
Proof. induction l; constructor; assumption. Qed.

Lemma no_terminal_In (l : list Event) ev :
  existsb isTerminal l = false -> In ev l -> isTerminal ev = false.
Proof.
  intros H Hin. destruct (isTerminal ev) eqn:E; [|reflexivity].
  rewrite <- H. symmetry. apply existsb_exists. eauto.
Qed.

Section IterationsFacts.

Variable projectId : JSString.

Local Notation nameOf := (fun e : SecretEntry => secretName projectId (key e)).

Lemma iterations_terminal es evs pushed aborted :
  Iterations projectId es evs pushed aborted ->
  if aborted
  then exists pre m,
         evs = pre ++ [SetFailed m] /\ existsb isTerminal pre = false
  else existsb isTerminal evs = false.
Proof.
  induction 1 as [|secret es evs pushed Hi
                  |secret es evs pushed evs' pushed' aborted Hi Hr IH].
  - reflexivity.
  - exact (iteration_terminal _ _ _ _ _ Hi).
  - pose proof (iteration_terminal _ _ _ _ _ Hi) as Hq. cbn in Hq.
    destruct aborted.
    + destruct IH as (pre & m & -> & Hpre).
      exists (evs ++ pre), m. rewrite existsb_app, Hq, Hpre, app_assoc. auto.
    + rewrite existsb_app, Hq, IH. reflexivity.
Qed.

Lemma iterations_concerns es evs pushed aborted rq o :
  Iterations projectId es evs pushed aborted ->
  In (Call rq o) evs ->
  exists secret, In secret es /\ concerns projectId secret rq.
Proof.
  induction 1 as [|secret es evs pushed Hi
                  |secret es evs pushed evs' pushed' aborted Hi Hr IH].
  - intros [].
  - intros Hin. exists secret. split; [left; reflexivity|].
    eapply iteration_concerns; eassumption.
  - intros Hin. apply in_app_or in Hin as [Hin|Hin].
    + exists secret. split; [left; reflexivity|].
      eapply iteration_concerns; eassumption.
    + destruct (IH Hin) as (x & Hx & Hc). exists x. split; [right|]; auto.
Qed.

Lemma iterations_getCalls es evs pushed aborted :
  Iterations projectId es evs pushed aborted ->
  exists done rest,
    es = done ++ rest
    /\ getCalls evs = map nameOf done
    /\ (aborted = false -> rest = []).
Proof.
  induction 1 as [|secret es evs pushed Hi
                  |secret es evs pushed evs' pushed' aborted Hi Hr IH].
  - exists [], []. auto.
  - exists [secret], es. rewrite (iteration_getCalls _ _ _ _ _ Hi).
    repeat split. discriminate.
  - destruct IH as (done & rest & -> & Hg & Ha).
    exists (secret :: done), rest.
    rewrite getCalls_app, (iteration_getCalls _ _ _ _ _ Hi), Hg. auto.
Qed.

Lemma iterations_calls es evs pushed aborted :
  Iterations projectId es evs pushed aborted ->
  (List.length (filter isCall evs) <= 4 * List.length es)%nat.
Proof.
  induction 1 as [|secret es evs pushed Hi
                  |secret es evs pushed evs' pushed' aborted Hi Hr IH].
  - cbn. lia.
  - pose proof (iteration_calls _ _ _ _ _ Hi). cbn [List.length]. lia.
  - pose proof (iteration_calls _ _ _ _ _ Hi).
    rewrite filter_app, length_app. cbn [List.length]. lia.
Qed.

Lemma iterations_create es evs pushed aborted l1 p k r o l2 :
  Iterations projectId es evs pushed aborted ->
  evs = l1 ++ Call (CreateSecret p k r) o :: l2 ->
  exists l0 e,
    l1 = l0 ++ [Call (GetSecret (secretName projectId k)) (Failed e)]
    /\ code_is 5 e = true
    /\ p = parentName projectId /\ r = Automatic.
Proof.
  intros H; revert l1.
  induction H as [|secret es evs pushed Hi
                  |secret es evs pushed evs' pushed' aborted Hi Hr IH];
    intros l1 E.
  - destruct l1; discriminate.
  - destruct (iteration_create _ _ _ _ _ Hi _ _ _ _ _ _ E)
      as (e & -> & He & Hp & Hr).
    exists [], e. auto.
  - apply app_eq_app in E as [l [[E1 E2]|[E1 E2]]].
    + destruct l as [|x l].
      * rewrite app_nil_r in E1. subst l1. cbn [app] in E2.
        destruct (IH [] (eq_sym E2)) as (l0 & e & E0 & _).
        destruct l0; discriminate.
      * cbn [app] in E2. injection E2 as <- _.
        destruct (iteration_create _ _ _ _ _ Hi _ _ _ _ _ _ E1)
          as (e & -> & He & Hp & Hr').
        exists [], e. auto.
    + destruct (IH l E2) as (l0 & e & -> & He & Hp & Hr').
      exists (evs ++ l0), e. rewrite E1, app_assoc. auto.
Qed.

Lemma iterations_writes es evs pushed rq o :
  Iterations projectId es evs pushed false ->
  In (Call rq o) evs ->
  match rq with
  | CreateSecret _ k _ => In k pushed
  | AddSecretVersion p _ => exists k, p = secretName projectId k /\ In k pushed
  | _ => True
  end.
Proof.
  intros H. remember false as aborted eqn:Ha. revert Ha.
  induction H as [|secret es evs pushed Hi
                  |secret es evs pushed evs' pushed' aborted Hi Hr IH];
    intros Ha Hin.
  - destruct Hin.
  - discriminate.
  - apply in_app_or in Hin as [Hin|Hin].
    + pose proof (iteration_concerns _ _ _ _ _ Hi _ _ Hin) as Hc.
      pose proof (iteration_writes _ _ _ _ _ Hi _ _ Hin eq_refl) as Hw.
      destruct rq as [n|p k r|p d|n]; try exact I.
      * subst pushed.
        destruct Hc as [Hc|[Hc|[Hc|Hc]]]; try discriminate.
        injection Hc as _ -> _. left. reflexivity.
      * subst pushed.
        destruct Hc as [Hc|[Hc|[Hc|Hc]]]; try discriminate.
        injection Hc as -> _. exists (key secret).
        split; [reflexivity | left; reflexivity].
    + specialize (IH Ha Hin).
      destruct rq as [n|p k r|p d|n]; try exact I.
      * apply in_or_app. right. exact IH.
      * destruct IH as (k & -> & Hk). exists k.
        split; [reflexivity | apply in_or_app; right; exact Hk].
Qed.

Lemma iterations_subsequence es evs pushed aborted :
  Iterations projectId es evs pushed aborted ->
  Subsequence pushed (map key es).
Proof.
  induction 1 as [|secret es evs pushed Hi
                  |secret es evs pushed evs' pushed' aborted Hi Hr IH].
  - constructor.
  - destruct (iteration_pushed _ _ _ _ _ Hi) as [_ Hp].
    rewrite (Hp eq_refl). apply Subsequence_nil.
  - destruct (iteration_pushed _ _ _ _ _ Hi) as [[->| ->] _]; cbn [app map].
    + apply sub_skip. exact IH.
    + apply sub_take. exact IH.
Qed.

Lemma iterations_start es evs pushed aborted :
  Iterations projectId es evs pushed aborted ->
  evs = [] /\ aborted = false \/ exists rq o t, evs = Call rq o :: t.
Proof.
  destruct 1 as [|secret es evs pushed Hi
                 |secret es evs pushed evs' pushed' aborted Hi Hr].
  - left. auto.
  - right. exact (iteration_starts _ _ _ _ _ Hi).
  - right. destruct (iteration_starts _ _ _ _ _ Hi) as (rq & o & t & ->).
    cbn [app]. eauto.
Qed.

End IterationsFacts.

(** ** Every run *)

Section RunFacts.

Context {S : Type}.
Variable client : JSString -> Client S.
Variables projectId secrets : JSString.
Variable s : S.

Local Notation final := (run_action client projectId secrets s).
Local Notation nameOf := (fun e : SecretEntry => secretName projectId (key e)).

Lemma run_output n updated :
  In (SetOutput n updated) (log final) ->
  existsb emptyKey (parseSecrets secrets) = false
  /\ exists evs,
       Iterations projectId (parseSecrets secrets) evs updated false
       /\ log final = evs ++ [SetOutput (str "updated_secrets") updated].
Proof.
  destruct (run_trace client projectId secrets s)
    as [[_ Hl]|[He (evs & pushed & aborted & Hi & Hl)]];
    rewrite Hl; intros Hin.
  - destruct Hin as [Hin|[]]; discriminate.
  - split; [exact He|].
    pose proof (iterations_terminal _ _ _ _ _ Hi) as Ht.
    destruct aborted.
    + destruct Ht as (pre & m & -> & Hpre). rewrite app_nil_r in Hin.
      apply in_app_or in Hin as [Hin|[Hin|[]]]; [|discriminate].
      apply (no_terminal_In _ _ Hpre) in Hin. discriminate.
    + apply in_app_or in Hin as [Hin|[Hin|[]]].
      * apply (no_terminal_In _ _ Ht) in Hin. discriminate.
      * injection Hin as _ <-. eauto.
Qed.

(** X4.  The run stops at the validation, with the validation message as
    its only event, exactly when some segment of the input, once trimmed,
    starts with '='. *)
Theorem validation_fails_iff :
  log final = [SetFailed Msg.invalid_format] <->
  exists seg r, In seg (split 44 secrets) /\ trim seg = 61 :: r.
Proof.
  rewrite <- emptyKey_segments.
  destruct (run_trace client projectId secrets s)
    as [[He Hl]|[He (evs & pushed & aborted & Hi & Hl)]].
  - split; auto.
  - rewrite He, Hl. split; [|discriminate]. intros E. exfalso.
    destruct (iterations_start _ _ _ _ _ Hi)
      as [[-> ->]|(rq & o & t & ->)]; discriminate.
Qed.

(** Once the inputs are read, the run ends with exactly one report: its
    last event is a [setFailed] or a [setOutput], and there is no other one
    before it. *)
Lemma one_report_after_inputs :
  exists pre t,
    log final = pre ++ [t]
    /\ isTerminal t = true
    /\ existsb isTerminal pre = false.
Proof.
  destruct (run_trace client projectId secrets s)
    as [[_ Hl]|[_ (evs & pushed & aborted & Hi & Hl)]]; rewrite Hl.
  - exists [], (SetFailed Msg.invalid_format). auto.
  - pose proof (iterations_terminal _ _ _ _ _ Hi) as Ht.
    destruct aborted.
    + destruct Ht as (pre & m & -> & Hpre).
      exists pre, (SetFailed m). rewrite app_nil_r. auto.
    + exists evs, (SetOutput (str "updated_secrets") pushed). auto.
Qed.

(** X6.  Every call made to the client is one of the four calls of some
    parsed entry, and the key of that entry is not empty. *)
Theorem calls_are_for_entries rq o :
  In (Call rq o) (log final) ->
  exists secret,
    In secret (parseSecrets secrets)
    /\ key secret <> []
    /\ concerns projectId secret rq.
Proof.
  destruct (run_trace client projectId secrets s)
    as [[_ Hl]|[He (evs & pushed & aborted & Hi & Hl)]];
    rewrite Hl; intros Hin.
  - destruct Hin as [Hin|[]]; discriminate.
  - assert (Hin' : In (Call rq o) evs).
    { apply in_app_or in Hin as [Hin|Hin]; [exact Hin|].
      destruct aborted; [destruct Hin|].
      destruct Hin as [Hin|[]]; discriminate. }
    destruct (iterations_concerns _ _ _ _ _ _ _ Hi Hin')
      as (secret & Hs & Hc).
    exists secret. repeat split; auto.
    intros Hk.
    assert (E : existsb emptyKey (parseSecrets secrets) = true).
    { apply existsb_exists. exists secret. split; [exact Hs|].
      unfold emptyKey. rewrite Hk. reflexivity. }
    congruence.
Qed.

(** X7.  The existence checks follow the input: the names asked to
    [getSecret] are, in order and once each, those of the first entries of
    the parsed list, and of all of them when the run sets its output. *)
Theorem existence_checks_follow_input :
  exists done rest,
    parseSecrets secrets = done ++ rest
    /\ getCalls (log final) = map nameOf done
    /\ ((exists n updated, In (SetOutput n updated) (log final)) ->
        rest = []).
Proof.
  destruct (run_trace client projectId secrets s)
    as [[_ Hl]|[He (evs & pushed & aborted & Hi & Hl)]].
  - exists [], (parseSecrets secrets). rewrite Hl. repeat split.
    intros (n & u & [H|[]]). discriminate.
  - destruct (iterations_getCalls _ _ _ _ _ Hi) as (done & rest & E & Hg & Ha).
    exists done, rest. split; [exact E|]. split.
    + rewrite Hl, getCalls_app, Hg. destruct aborted; cbn; apply app_nil_r.
    + intros (n & u & Hin). apply Ha.
      pose proof (iterations_terminal _ _ _ _ _ Hi) as Ht.
      destruct aborted; [|reflexivity].
      destruct Ht as (pre & m & -> & Hpre).
      rewrite Hl, app_nil_r in Hin.
      apply in_app_or in Hin as [Hin|[Hin|[]]]; [|discriminate].
      apply (no_terminal_In _ _ Hpre) in Hin. discriminate.
Qed.

(** X8.  A run makes at most four client calls for each parsed entry. *)
Theorem at_most_four_calls_per_entry :
  (List.length (filter isCall (log final))
   <= 4 * List.length (parseSecrets secrets))%nat.
Proof.
  destruct (run_trace client projectId secrets s)
    as [[_ Hl]|[He (evs & pushed & aborted & Hi & Hl)]]; rewrite Hl.
  - cbn. lia.
  - pose proof (iterations_calls _ _ _ _ _ Hi).
    rewrite filter_app, length_app. destruct aborted; cbn; lia.
Qed.

(** X9.  A secret is created only right after its existence check was
    rejected with code 5: every create call is made under the project,
    with automatic replication, and the event before it is the rejected
    [getSecret] of the same key. *)
Theorem create_only_after_not_found l1 p k r o l2 :
  log final = l1 ++ Call (CreateSecret p k r) o :: l2 ->
  exists l0 e,
    l1 = l0 ++ [Call (GetSecret (secretName projectId k)) (Failed e)]
    /\ code_is 5 e = true
    /\ p = parentName projectId /\ r = Automatic.
Proof.
  destruct (run_trace client projectId secrets s)
    as [[_ Hl]|[He (evs & pushed & aborted & Hi & Hl)]];
    rewrite Hl; intros E.
  - destruct l1 as [|x [|y l1]]; discriminate.
  - assert (E' : exists l2', evs = l1 ++ Call (CreateSecret p k r) o :: l2').
    { destruct aborted.
      - rewrite app_nil_r in E. eauto.
      - destruct (exists_last (l := l2)) as (l2' & x & ->).
        { intros ->.
          apply (f_equal (@rev Event)) in E.
          rewrite !rev_app_distr in E. discriminate. }
        exists l2'.
        change (l1 ++ Call (CreateSecret p k r) o :: l2' ++ [x])
          with (l1 ++ (Call (CreateSecret p k r) o :: l2') ++ [x]) in E.
        rewrite app_assoc in E. apply app_inj_tail in E as [E _].
        exact E. }
    destruct E' as (l2' & E').
    eapply iterations_create; eassumption.
Qed.

(** X10.  A run that sets its output reports every secret it tried to
    write: the key of every create call and of every add-version call of
    the run, whatever the outcome of the call, is in the output. *)
Theorem attempted_writes_are_reported n updated rq o :
  In (SetOutput n updated) (log final) ->
  In (Call rq o) (log final) ->
  match rq with
  | CreateSecret _ k _ => In k updated
  | AddSecretVersion p _ =>
      exists k, p = secretName projectId k /\ In k updated
  | _ => True
  end.
Proof.
  intros Hout Hin.
  destruct (run_output _ _ Hout) as (_ & evs & Hi & Hl).
  rewrite Hl in Hin.
  apply in_app_or in Hin as [Hin|[Hin|[]]]; [|discriminate].
  eapply iterations_writes; eassumption.
Qed.

(** X11.  The output lists keys of the input in the order of the input:
    it is the list of parsed keys with some of them left out. *)
Theorem output_in_input_order n updated :
  In (SetOutput n updated) (log final) ->
  Subsequence updated (map key (parseSecrets secrets)).
Proof.
  intros Hout.
  destruct (run_output _ _ Hout) as (_ & evs & Hi & _).
  eapply iterations_subsequence; eassumption.
Qed.

End RunFacts.

(** ** UTF-8 *)

Lemma Buffer_from_one c :
  Buffer_from [c] =
    if c <? 128 then [c]
    else if c <? 2048
         then [N.lor 192 (N.shiftr c 6); N.lor 128 (N.land c 63)]
         else if isHighSurrogate c then replacement_bytes
              else if isLowSurrogate c then replacement_bytes
                   else encode3 c.
Proof.
  change (Buffer_from [c])
    with (if c <? 128 then [c]
          else if c <? 2048
               then [N.lor 192 (N.shiftr c 6); N.lor 128 (N.land c 63)]
               else if isHighSurrogate c then replacement_bytes
                    else if isLowSurrogate c then replacement_bytes ++ []
                         else encode3 c ++ []).
  rewrite !app_nil_r. reflexivity.
Qed.

Lemma Buffer_from_cons c (r : JSString) :
  isHighSurrogate c = false ->
  Buffer_from (c :: r) =
    if c <? 128 then c :: Buffer_from r
    else if c <? 2048
         then N.lor 192 (N.shiftr c 6) :: N.lor 128 (N.land c 63)
                :: Buffer_from r
         else if isLowSurrogate c then replacement_bytes ++ Buffer_from r
              else encode3 c ++ Buffer_from r.
Proof.
  intros H.
  change (Buffer_from (c :: r))
    with (if c <? 128 then c :: Buffer_from r
          else if c <? 2048
               then N.lor 192 (N.shiftr c 6) :: N.lor 128 (N.land c 63)
                      :: Buffer_from r
               else if isHighSurrogate c
                    then match r with
                         | lo :: r' =>
                             if isLowSurrogate lo
                             then encode4 (65536 + N.shiftl (c - 55296) 10
                                           + (lo - 56320)) ++ Buffer_from r'
                             else replacement_bytes ++ Buffer_from r
                         | [] => replacement_bytes
                         end
                    else if isLowSurrogate c
                         then replacement_bytes ++ Buffer_from r
                         else encode3 c ++ Buffer_from r).
  rewrite H. reflexivity.
Qed.

Lemma land_shiftl_low x y n : y < 2 ^ n -> N.land (N.shiftl x n) y = 0.
Proof.
  intros Hy. apply N.bits_inj. intros i.
  rewrite N.land_spec, N.bits_0.
  destruct (N.lt_ge_cases i n) as [Hi|Hi].
  - rewrite N.shiftl_spec_low by exact Hi. reflexivity.
  - rewrite <- (N.mod_small y (2 ^ n)) by exact Hy.
    rewrite N.mod_pow2_bits_high by exact Hi. apply andb_false_r.
Qed.

Lemma lor_shiftl x y n : y < 2 ^ n -> N.lor (N.shiftl x n) y = x * 2 ^ n + y.
Proof.
  intros Hy. rewrite <- N.shiftl_mul_pow2.
  rewrite <- N.lxor_lor by (apply land_shiftl_low; exact Hy).
  symmetry. apply N.add_nocarry_lxor. apply land_shiftl_low; exact Hy.
Qed.

Lemma land_low x n : N.land x (N.ones n) = x mod 2 ^ n.
Proof. apply N.land_ones. Qed.

Lemma lor_128 x : x < 64 -> N.lor 128 x = 128 + x.
Proof. intros H. exact (lor_shiftl 2 x 6 H). Qed.
Lemma lor_192 x : x < 32 -> N.lor 192 x = 192 + x.
Proof. intros H. exact (lor_shiftl 6 x 5 H). Qed.
Lemma lor_224 x : x < 16 -> N.lor 224 x = 224 + x.
Proof. intros H. exact (lor_shiftl 14 x 4 H). Qed.
Lemma lor_240 x : x < 8 -> N.lor 240 x = 240 + x.
Proof. intros H. exact (lor_shiftl 30 x 3 H). Qed.
Lemma land_63 x : N.land x 63 = x mod 64.
Proof. exact (land_low x 6). Qed.
Lemma land_31 x : N.land x 31 = x mod 32.
Proof. exact (land_low x 5). Qed.
Lemma land_15 x : N.land x 15 = x mod 16.
Proof. exact (land_low x 4). Qed.
Lemma land_7 x : N.land x 7 = x mod 8.
Proof. exact (land_low x 3). Qed.
Lemma land_1023 x : N.land x 1023 = x mod 1024.
Proof. exact (land_low x 10). Qed.
Lemma lor_64 x y : N.lor (N.shiftl x 6) (y mod 64) = x * 64 + y mod 64.
Proof. apply (lor_shiftl x (y mod 64) 6). apply N.mod_lt. discriminate. Qed.
Lemma shiftr_6 x : N.shiftr x 6 = x / 64.
Proof. exact (N.shiftr_div_pow2 x 6). Qed.
Lemma shiftr_10 x : N.shiftr x 10 = x / 1024.
Proof. exact (N.shiftr_div_pow2 x 10). Qed.
Lemma shiftr_12 x : N.shiftr x 12 = x / 4096.
Proof. exact (N.shiftr_div_pow2 x 12). Qed.
Lemma shiftr_18 x : N.shiftr x 18 = x / 262144.
Proof. exact (N.shiftr_div_pow2 x 18). Qed.
Lemma shiftl_10 x : N.shiftl x 10 = x * 1024.
Proof. exact (N.shiftl_mul_pow2 x 10). Qed.


Ltac cmp :=
  repeat match goal with
    | |- context [?a =? ?b] => destruct (N.eqb_spec a b); try lia
    | |- context [?a <? ?b] => destruct (N.ltb_spec a b); try lia
    | |- context [?a <=? ?b] => destruct (N.leb_spec a b); try lia
    end.

Ltac run_decoder :=
  cbn [decode]; unfold feed, lead;
  cbn [needed cp lower upper idle]; cmp;
  cbn [andb orb needed cp lower upper idle app fst snd].

Lemma decode_1 b rest :
  b < 128 -> decode idle (b :: rest) = b :: decode idle rest.
Proof. intros H. run_decoder. reflexivity. Qed.

Lemma decode_2 b1 b2 rest :
  194 <= b1 <= 223 -> 128 <= b2 <= 191 ->
  decode idle (b1 :: b2 :: rest)
  = units (b1 mod 32 * 64 + b2 mod 64) ++ decode idle rest.
Proof.
  intros H1 H2. run_decoder. run_decoder.
  rewrite land_31, land_63, lor_64. reflexivity.
Qed.

Lemma decode_3 b1 b2 b3 rest :
  224 <= b1 <= 239 -> 128 <= b2 <= 191 ->
  (b1 = 224 -> 160 <= b2) -> (b1 = 237 -> b2 <= 159) ->
  128 <= b3 <= 191 ->
  decode idle (b1 :: b2 :: b3 :: rest)
  = units ((b1 mod 16 * 64 + b2 mod 64) * 64 + b3 mod 64)
      ++ decode idle rest.
Proof.
  intros H1 H2 Hl Hu H3. run_decoder; run_decoder; run_decoder;
    rewrite land_15, !land_63, !lor_64; reflexivity.
Qed.

Lemma decode_4 b1 b2 b3 b4 rest :
  240 <= b1 <= 244 -> 128 <= b2 <= 191 ->
  (b1 = 240 -> 144 <= b2) -> (b1 = 244 -> b2 <= 143) ->
  128 <= b3 <= 191 -> 128 <= b4 <= 191 ->
  decode idle (b1 :: b2 :: b3 :: b4 :: rest)
  = units (((b1 mod 8 * 64 + b2 mod 64) * 64 + b3 mod 64) * 64 + b4 mod 64)
      ++ decode idle rest.
Proof.
  intros H1 H2 Hl Hu H3 H4.
  run_decoder; run_decoder; run_decoder; run_decoder;
    rewrite land_7, !land_63, !lor_64; reflexivity.
Qed.

Lemma surrogate_ranges c :
  (isHighSurrogate c = true <-> 55296 <= c < 56320)
  /\ (isLowSurrogate c = true <-> 56320 <= c < 57344).
Proof.
  unfold isHighSurrogate, isLowSurrogate.
  rewrite !andb_true_iff, !N.leb_le, !N.ltb_lt. tauto.
Qed.

Lemma mod_above p m x : m <> 0 -> p mod m = 0 -> x < m -> (p + x) mod m = x.
Proof.
  intros Hm Hp Hx.
  rewrite N.Div0.add_mod, Hp, N.add_0_l, N.Div0.mod_mod.
  apply N.mod_small, Hx.
Qed.

Lemma mod64_128 x : x < 64 -> (128 + x) mod 64 = x.
Proof. apply mod_above; [discriminate | reflexivity]. Qed.
Lemma mod32_192 x : x < 32 -> (192 + x) mod 32 = x.
Proof. apply mod_above; [discriminate | reflexivity]. Qed.
Lemma mod16_224 x : x < 16 -> (224 + x) mod 16 = x.
Proof. apply mod_above; [discriminate | reflexivity]. Qed.
Lemma mod8_240 x : x < 8 -> (240 + x) mod 8 = x.
Proof. apply mod_above; [discriminate | reflexivity]. Qed.

(** A number written in base 64. *)
Lemma base64_step c : c = c / 64 * 64 + c mod 64 /\ c mod 64 < 64.
Proof.
  split.
  - rewrite N.mul_comm. apply N.div_mod. discriminate.
  - apply N.mod_lt. discriminate.
Qed.

Lemma div_div_64 c : c / 64 / 64 = c / 4096.
Proof. rewrite N.Div0.div_div. reflexivity. Qed.

Lemma div_div_4096 c : c / 4096 / 64 = c / 262144.
Proof. rewrite N.Div0.div_div. reflexivity. Qed.

Lemma unit_round_trip c rest :
  isHighSurrogate c = false -> isLowSurrogate c = false -> c < 65536 ->
  decode idle (Buffer_from [c] ++ rest) = c :: decode idle rest.
Proof.
  intros Hh Hl Hc.
  assert (Hr : ~ (55296 <= c < 57344)).
  { destruct (surrogate_ranges c) as [H1 H2].
    intros H. destruct (N.lt_ge_cases c 56320).
    - rewrite (proj2 H1) in Hh by lia. discriminate.
    - rewrite (proj2 H2) in Hl by lia. discriminate. }
  rewrite Buffer_from_one, Hh, Hl.
  destruct (N.ltb_spec c 128); [cbn [app]; apply decode_1; assumption|].
  destruct (base64_step c) as [E0 L0].
  destruct (base64_step (c / 64)) as [E1 L1]. rewrite div_div_64 in E1.
  set (e := c mod 64) in *. set (d := (c / 64) mod 64) in *.
  destruct (N.ltb_spec c 2048).
  - cbn [app]. rewrite shiftr_6, land_63. fold e.
    set (q := c / 64) in *. clearbody e d q.
    rewrite lor_192 by lia. rewrite lor_128 by lia.
    rewrite decode_2 by lia.
    rewrite mod32_192 by lia. rewrite mod64_128 by lia.
    rewrite <- E0.
    unfold units. destruct (N.ltb_spec c 65536); [reflexivity | lia].
  - unfold encode3. cbn [app]. rewrite shiftr_6, shiftr_12, !land_63.
    fold e. fold d.
    set (q := c / 64) in *. set (a := c / 4096) in *. clearbody e d q a.
    rewrite lor_224 by lia. rewrite !lor_128 by lia.
    rewrite decode_3 by lia.
    rewrite mod16_224 by lia. rewrite !mod64_128 by lia.
    rewrite <- E1, <- E0.
    unfold units. destruct (N.ltb_spec c 65536); [reflexivity | lia].
Qed.

Lemma units_pair hi lo :
  55296 <= hi < 56320 -> 56320 <= lo < 57344 ->
  units (65536 + (hi - 55296) * 1024 + (lo - 56320)) = [hi; lo].
Proof.
  intros Rh Rl. unfold units.
  destruct (N.ltb_spec (65536 + (hi - 55296) * 1024 + (lo - 56320)) 65536);
    [lia|].
  rewrite shiftr_10, land_1023.
  replace (65536 + (hi - 55296) * 1024 + (lo - 56320) - 65536)
    with ((lo - 56320) + (hi - 55296) * 1024) by lia.
  rewrite N.div_add by discriminate.
  rewrite N.Div0.mod_add.
  rewrite N.div_small by lia. rewrite N.mod_small by lia.
  f_equal; [lia|]. f_equal. lia.
Qed.

Lemma pair_round_trip hi lo rest :
  isHighSurrogate hi = true -> isLowSurrogate lo = true ->
  decode idle (Buffer_from [hi; lo] ++ rest) = hi :: lo :: decode idle rest.
Proof.
  intros Hh Hl.
  pose proof (proj1 (proj1 (surrogate_ranges hi)) Hh) as Rh.
  pose proof (proj1 (proj2 (surrogate_ranges lo)) Hl) as Rl.
  change (Buffer_from [hi; lo])
    with (if hi <? 128 then hi :: Buffer_from [lo]
          else if hi <? 2048
               then N.lor 192 (N.shiftr hi 6) :: N.lor 128 (N.land hi 63)
                      :: Buffer_from [lo]
               else if isHighSurrogate hi
                    then if isLowSurrogate lo
                         then encode4 (65536 + N.shiftl (hi - 55296) 10
                                       + (lo - 56320)) ++ []
                         else replacement_bytes ++ Buffer_from [lo]
                    else if isLowSurrogate hi
                         then replacement_bytes ++ Buffer_from [lo]
                         else encode3 hi ++ Buffer_from [lo]).
  rewrite Hh, Hl.
  destruct (N.ltb_spec hi 128); [lia|].
  destruct (N.ltb_spec hi 2048); [lia|].
  rewrite shiftl_10.
  pose proof (units_pair hi lo Rh Rl) as Hu.
  remember (65536 + (hi - 55296) * 1024 + (lo - 56320)) as c eqn:Ec.
  assert (Hc : 65536 <= c < 1114112) by lia.
  clear Ec.
  unfold encode4. cbn [app].
  rewrite shiftr_6, shiftr_12, shiftr_18, !land_63.
  destruct (base64_step c) as [E0 L0].
  destruct (base64_step (c / 64)) as [E1 L1]. rewrite div_div_64 in E1.
  destruct (base64_step (c / 4096)) as [E2 L2]. rewrite div_div_4096 in E2.
  set (e := c mod 64) in *. set (d := (c / 64) mod 64) in *.
  set (b := (c / 4096) mod 64) in *.
  set (q := c / 64) in *. set (p := c / 4096) in *.
  set (a := c / 262144) in *. clearbody e d b q p a.
  rewrite lor_240 by lia. rewrite !lor_128 by lia.
  rewrite decode_4 by lia.
  rewrite mod8_240 by lia. rewrite !mod64_128 by lia.
  rewrite <- E2, <- E1, <- E0, Hu. reflexivity.
Qed.

Lemma Buffer_from_unit c (r : JSString) :
  isHighSurrogate c = false ->
  Buffer_from (c :: r) = Buffer_from [c] ++ Buffer_from r.
Proof.
  intros H. rewrite Buffer_from_cons, Buffer_from_one, H by exact H.
  destruct (c <? 128); [reflexivity|].
  destruct (c <? 2048); [reflexivity|].
  destruct (isLowSurrogate c); reflexivity.
Qed.

Lemma Buffer_from_pair hi lo (r : JSString) :
  isHighSurrogate hi = true -> isLowSurrogate lo = true ->
  Buffer_from (hi :: lo :: r) = Buffer_from [hi; lo] ++ Buffer_from r.
Proof.
  intros Hh Hl.
  pose proof (proj1 (proj1 (surrogate_ranges hi)) Hh) as Rh.
  change (Buffer_from (hi :: lo :: r))
    with (if hi <? 128 then hi :: Buffer_from (lo :: r)
          else if hi <? 2048
               then N.lor 192 (N.shiftr hi 6) :: N.lor 128 (N.land hi 63)
                      :: Buffer_from (lo :: r)
               else if isHighSurrogate hi
                    then if isLowSurrogate lo
                         then encode4 (65536 + N.shiftl (hi - 55296) 10
                                       + (lo - 56320)) ++ Buffer_from r
                         else replacement_bytes ++ Buffer_from (lo :: r)
                    else if isLowSurrogate hi
                         then replacement_bytes ++ Buffer_from (lo :: r)
                         else encode3 hi ++ Buffer_from (lo :: r)).
  change (Buffer_from [hi; lo])
    with (if hi <? 128 then hi :: Buffer_from [lo]
          else if hi <? 2048
               then N.lor 192 (N.shiftr hi 6) :: N.lor 128 (N.land hi 63)
                      :: Buffer_from [lo]
               else if isHighSurrogate hi
                    then if isLowSurrogate lo
                         then encode4 (65536 + N.shiftl (hi - 55296) 10
                                       + (lo - 56320)) ++ []
                         else replacement_bytes ++ Buffer_from [lo]
                    else if isLowSurrogate hi
                         then replacement_bytes ++ Buffer_from [lo]
                         else encode3 hi ++ Buffer_from [lo]).
  destruct (N.ltb_spec hi 128); [lia|].
  destruct (N.ltb_spec hi 2048); [lia|].
  rewrite Hh, Hl, app_nil_r. reflexivity.
Qed.

Lemma round_trip_bounded (n : nat) : forall s : JSString,
  (List.length s <= n)%nat ->
  wellFormed s = true ->
  decode idle (Buffer_from s) = s.
Proof.
  induction n as [|n IH]; intros s Hn Hw.
  - destruct s; [reflexivity | cbn in Hn; lia].
  - destruct s as [|c r]; [reflexivity|].
    cbn [wellFormed] in Hw. cbn [List.length] in Hn.
    destruct (isHighSurrogate c) eqn:Hh.
    + destruct r as [|lo r]; [discriminate|].
      apply andb_true_iff in Hw as [Hl Hw]. cbn [List.length] in Hn.
      rewrite Buffer_from_pair, pair_round_trip by assumption.
      rewrite IH by (assumption || lia). reflexivity.
    + apply andb_true_iff in Hw as [Hw Hr].
      apply andb_true_iff in Hw as [Hl Hc].
      apply negb_true_iff in Hl. apply N.ltb_lt in Hc.
      rewrite Buffer_from_unit, unit_round_trip by assumption.
      rewrite IH by (assumption || lia). reflexivity.
Qed.

(** X12.  A string without lone surrogates, written as UTF-8 by
    [Buffer.from] and read back by [toString], is the same string. *)
Theorem utf8_round_trip (s : JSString) :
  wellFormed s = true -> toString_utf8 (Buffer_from s) = s.
Proof.
  intros H. unfold toString_utf8.
  apply (round_trip_bounded (List.length s)); [apply le_n | exact H].
Qed.

Section UpToDate.

Context {S : Type} (client : Client S).
Variable projectId : JSString.
Variable secret : SecretEntry.

(** X13.  A secret whose latest version holds the bytes the action would
    write for the desired value is left alone: no create call, no
    add-version call, and its key is not recorded. *)
Theorem written_value_is_up_to_date (st : State S) s1 s2 :
  wellFormed (value secret) = true ->
  getSecret client (secretName projectId (key secret)) (service st)
    = (Fulfilled tt, s1) ->
  accessSecretVersion client (latestVersion projectId (key secret)) s1
    = (Fulfilled
         {| payload := Some {| data := Some (Buffer_from (value secret)) |} |},
       s2) ->
  processSecret client projectId (parentName projectId) secret st
  = (Normal tt,
     {| service := s2;
        log := log st
                 ++ [Call (GetSecret (secretName projectId (key secret))) Ok;
                     Call (AccessSecretVersion
                             (latestVersion projectId (key secret))) Ok;
                     Info (Msg.up_to_date (key secret))];
        updatedSecrets := updatedSecrets st |}).
Proof.
  intros Hw Hget Hacc.
  unfold_body; simpl. rewrite Hget; simpl. rewrite Hacc; simpl.
  unfold currentSecretData; cbn [payload data].
  unfold toString_utf8.
  rewrite (round_trip_bounded _ _ (le_n _) Hw).
  rewrite (proj2 (eqb_eq _ _) eq_refl). simpl.
  flatten_log; reflexivity.
Qed.

End UpToDate.

(** ** Reading the inputs *)

Lemma trim_nil_blank (s : JSString) c :
  trim s = [] -> In c s -> isWhiteSpace c = true.
Proof.
  unfold trim. intros H.
  assert (E : trimStart s = []).
  { destruct (trimStart s) as [|x t] eqn:E; [reflexivity|].
    destruct (trimEnd_keeps_head x t (trimStart_head _ _ _ E)) as [u Hu].
    rewrite Hu in H. discriminate. }
  clear H. induction s as [|x s IH]; [intros []|].
  cbn [trimStart] in E. destruct (isWhiteSpace x) eqn:Hx; [|discriminate].
  intros [<-|Hin]; auto.
Qed.

Lemma blank_trim (s : JSString) :
  (forall c, In c s -> isWhiteSpace c = true) -> trim s = [].
Proof.
  intros H. unfold trim.
  assert (E : trimStart s = []).
  { induction s as [|x s IH]; [reflexivity|].
    cbn [trimStart]. rewrite (H x (or_introl eq_refl)).
    apply IH. intros c Hc. apply H. right. exact Hc. }
  rewrite E. reflexivity.
Qed.

Lemma split_covers sep (s : JSString) c :
  In c s -> c <> sep -> exists seg, In seg (split sep s) /\ In c seg.
Proof.
  induction s as [|x s IH]; [intros []|].
  intros Hin Hc. cbn [split].
  destruct (N.eqb_spec x sep) as [->|Hx].
  - destruct Hin as [<-|Hin]; [contradiction|].
    destruct (IH Hin Hc) as (seg & Hs & Hcs).
    exists seg. split; [right; exact Hs | exact Hcs].
  - pose proof (split_nonempty sep s) as Hn.
    destruct (split sep s) as [|h t]; [contradiction|].
    destruct Hin as [<-|Hin].
    + exists (x :: h). split; left; reflexivity.
    + destruct (IH Hin Hc) as (seg & [<-|Hs] & Hcs).
      * exists (x :: h). split; [left; reflexivity | right; exact Hcs].
      * exists seg. split; [right; exact Hs | exact Hcs].
Qed.

(** Trimming the whole input leaves no segment either. *)
Lemma blank_segments_trim (s : JSString) :
  (forall seg, In seg (split 44 s) -> trim seg = []) ->
  forall seg, In seg (split 44 (trim s)) -> trim seg = [].
Proof.
  intros H seg Hseg. apply blank_trim. intros c Hc.
  destruct (split_pieces 44 (trim s) seg Hseg) as [Hno Hsub].
  assert (Hne : c <> 44) by (intros ->; contradiction).
  destruct (split_covers 44 s c (trim_In _ _ (Hsub c Hc)) Hne)
    as (seg' & Hs' & Hc').
  exact (trim_nil_blank seg' c (H seg' Hs') Hc').
Qed.

Section Inputs.

Context {S : Type}.
Variable client : JSString -> Client S.

(** With the [getInput] of the test suite, [run] is the rest of [run] at
    the two strings. *)
Lemma run_from_start_mock projectId secrets (st : State S) :
  run_from_start (mock_getInput projectId secrets) client st
  = run client projectId secrets st.
Proof. reflexivity. Qed.

(** With [core.getInput], and both inputs supplied and not empty, [run] is
    the rest of [run] at the two inputs trimmed. *)
Lemma run_from_start_core env projectRaw secretsRaw (st : State S) :
  env (str "project_id") = Some projectRaw -> projectRaw <> [] ->
  env (str "secrets") = Some secretsRaw -> secretsRaw <> [] ->
  run_from_start (core_getInput env) client st
  = run client (trim projectRaw) (trim secretsRaw) st.
Proof.
  intros Hp Hpn Hs Hsn.
  unfold run_from_start, core_getInput, call, bind. rewrite Hp, Hs.
  destruct projectRaw as [|x p]; [contradiction|].
  destruct secretsRaw as [|y q]; [contradiction|].
  reflexivity.
Qed.

(** C9 (amended).  When both inputs are supplied and not empty, and no
    segment of the secrets input is left after splitting on ',' and
    trimming, the run calls nothing and sets [updated_secrets] to the empty
    sequence. *)
Theorem nothing_to_do env projectRaw secretsRaw (s : S) :
  env (str "project_id") = Some projectRaw -> projectRaw <> [] ->
  env (str "secrets") = Some secretsRaw -> secretsRaw <> [] ->
  (forall seg, In seg (split 44 secretsRaw) -> trim seg = []) ->
  run_from_start (core_getInput env) client (initial s) =
    (Normal tt,
     {| service := s;
        log := [SetOutput (str "updated_secrets") []];
        updatedSecrets := [] |}).
Proof.
  intros Hp Hpn Hs Hsn H.
  rewrite (run_from_start_core env projectRaw secretsRaw _ Hp Hpn Hs Hsn).
  rewrite run_spec.
  rewrite (no_segment_no_entry _ (blank_segments_trim secretsRaw H)).
  reflexivity.
Qed.

(** X5.  A run throws at one of its two [getInput] calls, and then it has
    logged nothing and called nothing, or it ends with exactly one report:
    its last event is a [setFailed] or a [setOutput], and there is no other
    one before it. *)
Theorem one_report_at_the_end getInput (s : S) :
  (exists e,
     (getInput (str "project_id") true = Throws e
      \/ getInput (str "secrets") true = Throws e)
     /\ run_from_start getInput client (initial s) = (Throw e, initial s))
  \/ exists pre t,
       log (snd (run_from_start getInput client (initial s))) = pre ++ [t]
       /\ isTerminal t = true
       /\ existsb isTerminal pre = false.
Proof.
  unfold run_from_start, call, bind.
  destruct (getInput (str "project_id") true) as [projectId|e].
  - destruct (getInput (str "secrets") true) as [secrets|e].
    + right. exact (one_report_after_inputs client projectId secrets s).
    + left. exists e. auto.
  - left. exists e. auto.
Qed.

End Inputs.

(** ** Failure reports *)

Ltac report_found :=
  do 3 eexists; (split; [reflexivity|]); split; auto 6 with names.

Lemma iteration_failure projectId secret evs pushed :
  Iteration projectId secret evs pushed true ->
  exists pre rq e m,
    evs = pre ++ [Call rq (Failed e); SetFailed m]
    /\ concerns projectId secret rq
    /\ names (key secret) e m.
Proof.
  intros H. remember true as aborted eqn:Ha.
  unfold concerns.
  inv_iteration H; try discriminate Ha;
    first [ solve [exists []; report_found]
          | solve [eexists [_]; report_found]
          | solve [eexists [_; _]; report_found]
          | solve [eexists [_; _; _]; report_found]
          | solve [eexists [_; _; _; _]; report_found]
          | solve [eexists [_; _; _; _; _]; report_found] ].
Qed.

Lemma iterations_failure projectId es evs pushed :
  Iterations projectId es evs pushed true ->
  exists pre rq e m secret,
    evs = pre ++ [Call rq (Failed e); SetFailed m]
    /\ In secret es
    /\ concerns projectId secret rq
    /\ names (key secret) e m.
Proof.
  intros H. remember true as aborted eqn:Ha. revert Ha.
  induction H as [|secret es evs pushed Hi
                  |secret es evs pushed evs' pushed' aborted Hi Hr IH];
    intros Ha.
  - discriminate.
  - destruct (iteration_failure _ _ _ _ Hi) as (pre & rq & e & m & E & Hc & Hn).
    exists pre, rq, e, m, secret. repeat split; auto. left. reflexivity.
  - destruct (IH Ha) as (pre & rq & e & m & x & -> & Hx & Hc & Hn).
    exists (evs ++ pre), rq, e, m, x. rewrite app_assoc.
    repeat split; auto. right. exact Hx.
Qed.

Section Reports.

Context {S : Type}.
Variable client : JSString -> Client S.
Variables projectId secrets : JSString.
Variable s : S.

(** X14.  A failure report is the validation message, or it directly
    follows the rejected call of a parsed entry and names that entry: it
    contains the key and, for an [Error] instance, ends with the message of
    the error.  This holds for every rejection that ends the run, with
    code 5 or not. *)
Theorem failure_report_names_entry m :
  In (SetFailed m) (log (run_action client projectId secrets s)) ->
  m = Msg.invalid_format
  \/ exists pre rq e secret,
       log (run_action client projectId secrets s)
       = pre ++ [Call rq (Failed e); SetFailed m]
       /\ In secret (parseSecrets secrets)
       /\ concerns projectId secret rq
       /\ names (key secret) e m.
Proof.
  destruct (run_trace client projectId secrets s)
    as [[_ Hl]|[_ (evs & pushed & aborted & Hi & Hl)]];
    rewrite Hl; intros Hin.
  - left. destruct Hin as [Hin|[]]. injection Hin as <-. reflexivity.
  - right. pose proof (iterations_terminal _ _ _ _ _ Hi) as Ht.
    destruct aborted.
    + destruct (iterations_failure _ _ _ _ Hi)
        as (pre & rq & e & m' & secret & E & Hs & Hc & Hn).
      rewrite app_nil_r in Hin |- *.
      destruct Ht as (pre' & m'' & E' & Hpre).
      assert (m = m').
      { rewrite E' in Hin.
        apply in_app_or in Hin as [Hin|[Hin|[]]].
        - apply (no_terminal_In _ _ Hpre) in Hin. discriminate.
        - injection Hin as <-. rewrite E in E'.
          change (pre ++ [Call rq (Failed e); SetFailed m'])
            with (pre ++ [Call rq (Failed e)] ++ [SetFailed m']) in E'.
          rewrite app_assoc in E'.
          apply app_inj_tail in E' as [_ E']. injection E' as ->.
          reflexivity. }
      subst m'. exists pre, rq, e, secret. auto.
    + apply in_app_or in Hin as [Hin|[Hin|[]]]; [|discriminate].
      apply (no_terminal_In _ _ Ht) in Hin. discriminate.
Qed.

End Reports.

(** ** Concrete runs, continued *)

Lemma parsed_without_separators_witness :
  let secret := entry "KEY_ONE" "val1" in
  ~ In 44 (key secret) /\ ~ In 61 (key secret)
  /\ ~ In 44 (value secret) /\ ~ In 61 (value secret).
Proof.
  apply (parsed_without_separators
           (str "  KEY_ONE = val1  , ,, KEY_TWO=val2, ")
           (entry "KEY_ONE" "val1")).
  vm_compute. left. reflexivity.
Defined.

Lemma parsed_trimmed_witness :
  let secret := entry "KEY_ONE" "val1" in
  Trimmed (key secret) /\ Trimmed (value secret)
  /\ trim (key secret) = key secret /\ trim (value secret) = value secret.
Proof.
  apply (parsed_trimmed
           (str "  KEY_ONE = val1  , ,, KEY_TWO=val2, ")
           (entry "KEY_ONE" "val1")).
  vm_compute. left. reflexivity.
Defined.

Lemma calls_are_for_entries_witness :
  exists secret,
    In secret (parseSecrets (str "NEW_SECRET=new_value"))
    /\ key secret <> []
    /\ concerns project secret
         (CreateSecret (parentName project) (str "NEW_SECRET") Automatic).
Proof.
  apply (calls_are_for_entries (fun _ => Mock.client) project
           (str "NEW_SECRET=new_value") Mock.defaults
           (CreateSecret (parentName project) (str "NEW_SECRET") Automatic)
           Ok).
  vm_compute. listed.
Defined.

Lemma create_only_after_not_found_witness :
  exists l0 e,
    [Call (GetSecret (secretName project (str "NEW_SECRET")))
       (Failed (Mock.plain 5 "Secret not found"))]
    = l0 ++ [Call (GetSecret (secretName project (str "NEW_SECRET")))
               (Failed e)]
    /\ code_is 5 e = true
    /\ parentName project = parentName project /\ Automatic = Automatic.
Proof.
  apply (create_only_after_not_found (fun _ => Mock.client) project
           (str "NEW_SECRET=new_value") Mock.defaults
           [Call (GetSecret (secretName project (str "NEW_SECRET")))
              (Failed (Mock.plain 5 "Secret not found"))]
           (parentName project) (str "NEW_SECRET") Automatic Ok
           [Call (AddSecretVersion (secretName project (str "NEW_SECRET"))
                    (Buffer_from (str "new_value"))) Ok;
            SetOutput (str "updated_secrets") [str "NEW_SECRET"]]).
  vm_compute. reflexivity.
Defined.

Lemma attempted_writes_are_reported_witness :
  exists k,
    secretName project (str "UPDATE_MULTI") = secretName project k
    /\ In k [str "NEW_MULTI"; str "UPDATE_MULTI"].
Proof.
  apply (attempted_writes_are_reported (fun _ => Mock.client) project
           (str "NEW_MULTI=new_multi_val, UPDATE_MULTI=update_new_val, NOCHANGE_MULTI=nochange_val")
           multi (str "updated_secrets")
           [str "NEW_MULTI"; str "UPDATE_MULTI"]
           (AddSecretVersion (secretName project (str "UPDATE_MULTI"))
              (Buffer_from (str "update_new_val")))
           Ok).
  - vm_compute. listed.
  - vm_compute. listed.
Defined.

Lemma output_in_input_order_witness :
  Subsequence [str "NEW_MULTI"; str "UPDATE_MULTI"]
    (map key
       (parseSecrets
          (str "NEW_MULTI=new_multi_val, UPDATE_MULTI=update_new_val, NOCHANGE_MULTI=nochange_val"))).
Proof.
  apply (output_in_input_order (fun _ => Mock.client) project
           (str "NEW_MULTI=new_multi_val, UPDATE_MULTI=update_new_val, NOCHANGE_MULTI=nochange_val")
           multi (str "updated_secrets")).
  vm_compute. listed.
Defined.

Lemma utf8_round_trip_witness :
  toString_utf8 (Buffer_from [233; 8364; 55357; 56832])
  = [233; 8364; 55357; 56832].
Proof. apply (utf8_round_trip [233; 8364; 55357; 56832]). reflexivity. Defined.

Lemma written_value_is_up_to_date_witness :
  processSecret Mock.client project (parentName project)
    (entry "EXISTING_SECRET_SAME" "same_value")
    (initial (existing "same_value"))
  = (Normal tt,
     {| service := Mock.defaults;
        log := [Call (GetSecret
                        (secretName project (str "EXISTING_SECRET_SAME"))) Ok;
                Call (AccessSecretVersion
                        (latestVersion project (str "EXISTING_SECRET_SAME")))
                  Ok;
                Info (Msg.up_to_date (str "EXISTING_SECRET_SAME"))];
        updatedSecrets := [] |}).
Proof.
  exact (written_value_is_up_to_date Mock.client project
           (entry "EXISTING_SECRET_SAME" "same_value")
           (initial (existing "same_value")) _ _
           eq_refl eq_refl eq_refl).
Defined.

Lemma failure_report_names_entry_witness :
  let m :=
    str "Error creating secret FAIL_CREATE or adding initial version: API Error during creation" in
  let final :=
    run_action (fun _ => Mock.client) project
      (str "FAIL_CREATE=fail_create_value") create_fails in
  m = Msg.invalid_format
  \/ exists pre rq e secret,
       log final = pre ++ [Call rq (Failed e); SetFailed m]
       /\ In secret (parseSecrets (str "FAIL_CREATE=fail_create_value"))
       /\ concerns project secret rq
       /\ names (key secret) e m.
Proof.
  apply (failure_report_names_entry (fun _ => Mock.client) project
           (str "FAIL_CREATE=fail_create_value") create_fails).
  vm_compute. listed.
Defined.

Lemma nothing_to_do_witness :
  run_from_start
    (core_getInput (inputs "test-project-123" ",, ,"))
    (fun _ => Mock.client) (initial Mock.defaults)
  = (Normal tt,
     {| service := Mock.defaults;
        log := [SetOutput (str "updated_secrets") []];
        updatedSecrets := [] |}).
Proof.
  apply (nothing_to_do (fun _ => Mock.client)
           (inputs "test-project-123" ",, ,")
           (str "test-project-123") (str ",, ,") Mock.defaults).
  - reflexivity.
  - discriminate.
  - reflexivity.
  - discriminate.
  - intros seg H. vm_compute in H.
    repeat (destruct H as [<-|H]; [reflexivity|]). contradiction.
Defined.

(** C9, as stated, fails: the secrets input is the empty string, which has
    no segment left after splitting and trimming; [core.getInput], called
    with [required: true], throws, and the run rejects without setting any
    output. *)
Lemma nothing_to_do_counterexample :
  (forall seg, In seg (split 44 (str "")) -> trim seg = [])
  /\ run_from_start
       (core_getInput (inputs "test-project-123" ""))
       (fun _ => Mock.client) (initial Mock.defaults)
     = (Throw (Mock.new_Error "Input required and not supplied: secrets"),
        initial Mock.defaults).
Proof.
  split.
  - intros seg [<-|[]]. reflexivity.
  - reflexivity.
Qed.
